(** * Field transforms of the Firestore client model

    A shallow embedding of [Firestore/core/src/model/transform_operation.cc]:
    the three transform kinds (server timestamp, array union / removal and
    numeric increment), their local and remote application, base values,
    equality and hashing.

    Conventions of the embedding:
    - [int64_t] is [Z] with the two's complement wrap-around written out;
    - [size_t] is [Z] reduced modulo [2^64];
    - [double] is a primitive binary64 float;
    - [std::vector] is [list], read with [!!] and erased with [delete];
    - [absl::optional] is [option];
    - a call that can run into [HARD_ASSERT] / [HARD_FAIL], into an invalid
      downcast or into [std::out_of_range] returns [option]; [None] is the
      abort. *)

From Stdlib Require Import ZArith Lia Floats.
From stdpp Require Import base option list strings.

Local Open Scope Z_scope.

(** ** Machine integers *)

Definition INT64_MAX : Z := 2 ^ 63 - 1.
Definition INT64_MIN : Z := - 2 ^ 63.

Definition int64_range (z : Z) : Prop := INT64_MIN <= z <= INT64_MAX.

(** Two's complement reduction of an exact result to [int64_t]. *)
Definition int64_wrap (z : Z) : Z := (z + 2 ^ 63) mod 2 ^ 64 - 2 ^ 63.

Definition int64_add (x y : Z) : Z := int64_wrap (x + y).
Definition int64_sub (x y : Z) : Z := int64_wrap (x - y).

(** Modelled from the spec: [LONG_MAX] and [LONG_MIN] are macros of
    [<climits>], which is not part of the sources; the spec names them "the
    maximum representable signed 64-bit value" and "the minimum", which is
    their value wherever [long] is 64 bits wide. *)
Definition LONG_MAX : Z := INT64_MAX.
Definition LONG_MIN : Z := INT64_MIN.

(** Reduction of an exact result to [size_t]. *)
Definition size_t_wrap (z : Z) : Z := z mod 2 ^ 64.

(** The saturating sum the spec describes, on exact integers. *)
Definition saturating_sum (x y : Z) : Z :=
  if decide (INT64_MAX < x + y) then INT64_MAX
  else if decide (x + y < INT64_MIN) then INT64_MIN
  else x + y.

(** ** Timestamps and field values *)

(** Modelled from the spec: [Timestamp] is declared in
    [firebase/firestore/timestamp.h]; only its being a wall-clock instant
    matters here. *)
Record Timestamp : Type := { seconds : Z; nanoseconds : Z }.

(** Modelled from the spec: the field value type is declared outside the
    sources; the spec gives it as a tagged union supporting
    null/bool/integer/double/string/array/map/timestamp, and the server
    timestamp transform builds a "pending server timestamp" sentinel from the
    local write time and the previous value. The constructors carry the names
    of the factory functions the source calls. *)
Module google_firestore_v1_Value.

Inductive Type_ : Set :=
| Null | Boolean | Integer | Double | Timestamp_ | ServerTimestamp
| String | Array | Object.

#[global] Instance Type_eq_dec : EqDecision Type_.
Proof. solve_decision. Defined.

Unset Elimination Schemes.
Inductive t : Type :=
| FromNull
| FromBoolean (b : bool)
| FromInteger (i : Z)
| FromDouble (d : float)
| FromTimestamp (ts : Timestamp)
| FromServerTimestamp (local_write_time : Timestamp) (previous_value : option t)
| FromString (s : string)
| FromArray (elements : list t)
| FromMap (fields : list (string * t)).
Set Elimination Schemes.

Definition type (v : t) : Type_ :=
  match v with
  | FromNull => Null
  | FromBoolean _ => Boolean
  | FromInteger _ => Integer
  | FromDouble _ => Double
  | FromTimestamp _ => Timestamp_
  | FromServerTimestamp _ _ => ServerTimestamp
  | FromString _ => String
  | FromArray _ => Array
  | FromMap _ => Object
  end.

Definition is_number (v : t) : bool :=
  bool_decide (type v = Integer) || bool_decide (type v = Double).

(** The payload accessors are only valid on the matching type. *)
Definition integer_value (v : t) : option Z :=
  match v with FromInteger i => Some i | _ => None end.

Definition double_value (v : t) : option float :=
  match v with FromDouble d => Some d | _ => None end.

Definition array_value (v : t) : option (list t) :=
  match v with FromArray l => Some l | _ => None end.

End google_firestore_v1_Value.

Abbreviation Value := google_firestore_v1_Value.t.
Import google_firestore_v1_Value.

(** The equality ([operator==], with [operator!=] its negation) and the hash
    of field values are defined with the value type, outside the sources: they
    are an interface of the development. *)
Class ValueOps : Type := {
  value_eqb : Value → Value → bool;
  value_hash : Value → Z
}.

(** What the spec assumes of them: "defined equality and hashing". *)
Class ValueLaws `{ValueOps} : Prop := {
  value_eqb_refl : ∀ x, value_eqb x x = true;
  value_eqb_sym : ∀ x y, value_eqb x y = value_eqb y x;
  value_hash_eqb : ∀ x y, value_eqb x y = true → value_hash x = value_hash y
}.

(** [static_cast<double>] of an [int64_t]: round to nearest, ties to even. *)
Definition double_of_int64 (i : Z) : float :=
  SF2Prim (binary_normalize prec emax i 0 false).

(** What the conversion of an integer to [double] is to give, in integer
    arithmetic: the magnitude keeps its 53 leading bits, the [n] bits below
    them are rounded to the nearest, a tie to the even mantissa. *)
Definition round_magnitude (a : Z) : Z :=
  let n := Z.max 0 (Z.log2 a - 52) in
  let q := a / 2 ^ n in
  let r := a mod 2 ^ n in
  let m :=
    if 2 * r <? 2 ^ n then q
    else if 2 ^ n <? 2 * r then q + 1
    else if Z.even q then q else q + 1 in
  m * 2 ^ n.

Definition round_to_53_bits (i : Z) : Z :=
  Z.sgn i * round_magnitude (Z.abs i).

(** The integer a floating-point datum holds, when it is finite and
    integral: sign, mantissa [m] and exponent [e] stand for [± m * 2^e]. *)
Definition spec_float_integer (f : spec_float) : option Z :=
  match f with
  | S754_zero _ => Some 0
  | S754_finite s m e =>
      if 0 <=? e then Some (cond_Zopp s (Z.pos m * 2 ^ e))
      else if Z.pos m mod 2 ^ (- e) =? 0
           then Some (cond_Zopp s (Z.pos m / 2 ^ (- e)))
           else None
  | _ => None
  end.

Definition double_integer_value (d : float) : option Z :=
  spec_float_integer (Prim2SF d).

(** ** The transform kinds and their representations *)

(** Modelled from the spec: the [Type] enumeration lives in the header; the
    spec gives the closed set of variant tags. *)
Inductive Type_ : Set := ServerTimestamp | ArrayUnion | ArrayRemove | Increment.

#[global] Instance Type_eq_dec : EqDecision Type_.
Proof. solve_decision. Defined.

(** The three subclasses of [TransformOperation::Rep], with their members. *)
Inductive Rep : Type :=
| ServerTimestampTransform_Rep
| ArrayTransform_Rep (type_ : Type_) (elements_ : list Value)
| NumericIncrementTransform_Rep (operand_ : Value).

(** The virtual [type()]. *)
Definition Rep_type (r : Rep) : Type_ :=
  match r with
  | ServerTimestampTransform_Rep => ServerTimestamp
  | ArrayTransform_Rep type_ _ => type_
  | NumericIncrementTransform_Rep _ => Increment
  end.

(** [static_cast<const ArrayTransform::Rep&>] and
    [static_cast<const NumericIncrementTransform::Rep&>]: defined only on an
    object of that class. *)
Definition cast_ArrayTransform_Rep (r : Rep) : option (Type_ * list Value) :=
  match r with ArrayTransform_Rep ty es => Some (ty, es) | _ => None end.

Definition cast_NumericIncrementTransform_Rep (r : Rep) : option Value :=
  match r with NumericIncrementTransform_Rep op => Some op | _ => None end.

(** [TransformOperation]: a possibly null shared pointer to a [Rep]. *)
Record TransformOperation : Type := { rep_ : option Rep }.

Definition IsArrayTransform (type : Type_) : bool :=
  bool_decide (type = ArrayUnion) || bool_decide (type = ArrayRemove).

(** *** ServerTimestampTransform::Rep *)
Module ServerTimestampTransform.

Definition type : Type_ := ServerTimestamp.

Definition ApplyToLocalView (previous_value : option Value)
    (local_write_time : Timestamp) : Value :=
  FromServerTimestamp local_write_time previous_value.

Definition ApplyToRemoteDocument (_ : option Value)
    (transform_result : Value) : Value :=
  transform_result.

Definition ComputeBaseValue (_ : option Value) : option Value := None.

Definition Equals (other : Rep) : bool :=
  bool_decide (Rep_type other = ServerTimestamp).

Definition Hash : Z := 37.

Definition ToString : string := "ServerTimestamp".

(** The constructor. *)
Definition new : TransformOperation :=
  {| rep_ := Some ServerTimestampTransform_Rep |}.

End ServerTimestampTransform.

(** *** ArrayTransform::Rep *)
Module ArrayTransform.
Section Rep.
Context `{ValueOps}.

(** [absl::c_find(c, value)]: the position of the first element [x] with
    [x == value]; [c.end()] is position [length c]. *)
Fixpoint c_find (c : list Value) (value : Value) : nat :=
  match c with
  | [] => 0%nat
  | x :: c' => if value_eqb x value then 0%nat else S (c_find c' value)
  end.

Definition Coercedgoogle_firestore_v1_ValuesArray
    (value : option Value) : option (list Value) :=
  match value with
  | Some v =>
      if bool_decide (google_firestore_v1_Value.type v
                      = google_firestore_v1_Value.Array)
      then array_value v
      else Some []
  | None => Some []
  end.

(** The inner loop of the removal branch,
    [for (size_t i = 0; i < result.size();)], from position [i]. Every
    iteration either erases position [i] or moves past it; [fuel] bounds
    the iterations and [None] is running out of it (or [at(i)] out of
    range). *)
Fixpoint erase_loop (fuel : nat) (element : Value) (result : list Value)
    (i : nat) : option (list Value) :=
  if decide (i < length result)%nat then
    match fuel with
    | O => None
    | S fuel' =>
        x ← result !! i;
        if value_eqb element x
        then erase_loop fuel' element (delete i result) i
        else erase_loop fuel' element result (S i)
    end
  else Some result.

(** The body of [for (element : elements_)] in [Apply]. *)
Definition Apply_body (type_ : Type_) (result : list Value)
    (element : Value) : option (list Value) :=
  let pos := c_find result element in
  if bool_decide (type_ = ArrayUnion) then
    if bool_decide (pos = length result)
    then Some (result ++ [element])
    else Some result
  else
    if bool_decide (type_ = ArrayRemove)
    then erase_loop (length result) element result 0
    else None.

Fixpoint Apply_loop (type_ : Type_) (elements : list Value)
    (result : list Value) : option (list Value) :=
  match elements with
  | [] => Some result
  | element :: rest =>
      result' ← Apply_body type_ result element;
      Apply_loop type_ rest result'
  end.

Definition Apply (type_ : Type_) (elements_ : list Value)
    (previous_value : option Value) : option Value :=
  result ← Coercedgoogle_firestore_v1_ValuesArray previous_value;
  result' ← Apply_loop type_ elements_ result;
  Some (FromArray result').

Definition ApplyToLocalView (type_ : Type_) (elements_ : list Value)
    (previous_value : option Value) (_ : Timestamp) : option Value :=
  Apply type_ elements_ previous_value.

Definition ApplyToRemoteDocument (type_ : Type_) (elements_ : list Value)
    (previous_value : option Value) (_ : Value) : option Value :=
  Apply type_ elements_ previous_value.

Definition ComputeBaseValue (_ : option Value) : option Value := None.

(** [for (size_t i = 0; i < elements_.size(); i++)] of [Equals], with [n]
    iterations left from position [i]. *)
Fixpoint Equals_loop (n i : nat) (other_elements elements : list Value)
    : option bool :=
  match n with
  | O => Some true
  | S n' =>
      a ← other_elements !! i;
      b ← elements !! i;
      if negb (value_eqb a b) then Some false
      else Equals_loop n' (S i) other_elements elements
  end.

Definition Equals (type_ : Type_) (elements_ : list Value) (other : Rep)
    : option bool :=
  if bool_decide (Rep_type other ≠ type_) then Some false
  else
    other_rep ← cast_ArrayTransform_Rep other;
    if bool_decide (length other_rep.2 ≠ length elements_) then Some false
    else Equals_loop (length elements_) 0 other_rep.2 elements_.

Definition Hash (type_ : Type_) (elements_ : list Value) : Z :=
  let result := 37 in
  let result :=
    size_t_wrap (31 * result
                 + (if bool_decide (type_ = ArrayUnion) then 1231 else 1237)) in
  foldl (λ result element, size_t_wrap (31 * result + value_hash element))
        result elements_.

End Rep.

(** [ArrayTransform(Type, std::vector<Value>)]. *)
Definition new (type : Type_) (elements : list Value)
    : option TransformOperation :=
  let op := {| rep_ := Some (ArrayTransform_Rep type elements) |} in
  if IsArrayTransform type then Some op else None.

(** [ArrayTransform(const TransformOperation&)]. *)
Definition from_operation (op : TransformOperation)
    : option TransformOperation :=
  r ← rep_ op;
  if IsArrayTransform (Rep_type r) then Some op else None.

(** [ArrayTransform::elements()], through [array_rep()]: the downcast of the
    representation the operation points to. *)
Definition elements (op : TransformOperation) : option (list Value) :=
  r ← rep_ op;
  array_rep ← cast_ArrayTransform_Rep r;
  Some array_rep.2.

(** [ArrayTransform::Rep::ToString]; [util::ToString] of a vector of values
    is defined outside the sources and passed in. *)
Definition ToString (elements_ToString : list Value → string)
    (type_ : Type_) (elements_ : list Value) : string :=
  let name :=
    if bool_decide (type_ = ArrayUnion) then "ArrayUnion" else "ArrayRemove" in
  name +:+ "(" +:+ elements_ToString elements_ +:+ ")".

End ArrayTransform.

(** *** NumericIncrementTransform::Rep *)
Module NumericIncrementTransform.

Definition SafeIncrement (x y : Z) : Z :=
  if bool_decide (x > 0) && bool_decide (y > int64_sub LONG_MAX x) then LONG_MAX
  else if bool_decide (x < 0) && bool_decide (y < int64_sub LONG_MIN x) then LONG_MIN
  else int64_add x y.

Definition AsDouble (value : Value) : option float :=
  if bool_decide (google_firestore_v1_Value.type value
                  = google_firestore_v1_Value.Double)
  then double_value value
  else if bool_decide (google_firestore_v1_Value.type value
                       = google_firestore_v1_Value.Integer)
  then double_of_int64 <$> integer_value value
  else None.

Definition ComputeBaseValue (previous_value : option Value) : option Value :=
  match previous_value with
  | Some v => if is_number v then previous_value else Some (FromInteger 0)
  | None => Some (FromInteger 0)
  end.

Definition ApplyToLocalView (operand_ : Value)
    (previous_value : option Value) (_ : Timestamp) : option Value :=
  let base_value := ComputeBaseValue previous_value in
  match base_value with
  | Some base =>
      if bool_decide (google_firestore_v1_Value.type base
                      = google_firestore_v1_Value.Integer)
         && bool_decide (google_firestore_v1_Value.type operand_
                         = google_firestore_v1_Value.Integer)
      then
        x ← integer_value base;
        y ← integer_value operand_;
        Some (FromInteger (SafeIncrement x y))
      else
        if is_number base then
          a ← AsDouble base;
          b ← AsDouble operand_;
          Some (FromDouble (a + b)%float)
        else None
  | None => None
  end.

Definition ApplyToRemoteDocument (_ : option Value)
    (transform_result : Value) : Value :=
  transform_result.

Section Rep.
Context `{ValueOps}.

Definition Equals (operand_ : Value) (other : Rep) : option bool :=
  if bool_decide (Rep_type other ≠ Increment) then Some false
  else
    other_operand ← cast_NumericIncrementTransform_Rep other;
    Some (value_eqb operand_ other_operand).

Definition Hash (operand_ : Value) : Z := value_hash operand_.

End Rep.

(** [NumericIncrementTransform(Value operand)]. *)
Definition new (operand : Value) : option TransformOperation :=
  let op := {| rep_ := Some (NumericIncrementTransform_Rep operand) |} in
  if is_number operand then Some op else None.

(** [NumericIncrementTransform(const TransformOperation&)]. *)
Definition from_operation (op : TransformOperation)
    : option TransformOperation :=
  r ← rep_ op;
  if bool_decide (Rep_type r = Increment) then Some op else None.

(** [NumericIncrementTransform::operand()]. *)
Definition operand (op : TransformOperation) : option Value :=
  r ← rep_ op;
  cast_NumericIncrementTransform_Rep r.

(** [NumericIncrementTransform::Rep::ToString]; [ToString] of a value is
    defined outside the sources and passed in. *)
Definition ToString (value_ToString : Value → string) (operand_ : Value)
    : string :=
  "NumericIncrement(" +:+ value_ToString operand_ +:+ ")".

End NumericIncrementTransform.

(** ** Virtual dispatch through [TransformOperation::Rep] *)
Section Dispatch.
Context `{ValueOps}.

Definition Rep_ApplyToLocalView (r : Rep) (previous_value : option Value)
    (local_write_time : Timestamp) : option Value :=
  match r with
  | ServerTimestampTransform_Rep =>
      Some (ServerTimestampTransform.ApplyToLocalView
              previous_value local_write_time)
  | ArrayTransform_Rep type_ elements_ =>
      ArrayTransform.ApplyToLocalView
        type_ elements_ previous_value local_write_time
  | NumericIncrementTransform_Rep operand_ =>
      NumericIncrementTransform.ApplyToLocalView
        operand_ previous_value local_write_time
  end.

Definition Rep_ApplyToRemoteDocument (r : Rep)
    (previous_value : option Value) (transform_result : Value)
    : option Value :=
  match r with
  | ServerTimestampTransform_Rep =>
      Some (ServerTimestampTransform.ApplyToRemoteDocument
              previous_value transform_result)
  | ArrayTransform_Rep type_ elements_ =>
      ArrayTransform.ApplyToRemoteDocument
        type_ elements_ previous_value transform_result
  | NumericIncrementTransform_Rep _ =>
      Some (NumericIncrementTransform.ApplyToRemoteDocument
              previous_value transform_result)
  end.

Definition Rep_ComputeBaseValue (r : Rep) (previous_value : option Value)
    : option Value :=
  match r with
  | ServerTimestampTransform_Rep =>
      ServerTimestampTransform.ComputeBaseValue previous_value
  | ArrayTransform_Rep _ _ => ArrayTransform.ComputeBaseValue previous_value
  | NumericIncrementTransform_Rep _ =>
      NumericIncrementTransform.ComputeBaseValue previous_value
  end.

Definition Rep_Equals (r other : Rep) : option bool :=
  match r with
  | ServerTimestampTransform_Rep =>
      Some (ServerTimestampTransform.Equals other)
  | ArrayTransform_Rep type_ elements_ =>
      ArrayTransform.Equals type_ elements_ other
  | NumericIncrementTransform_Rep operand_ =>
      NumericIncrementTransform.Equals operand_ other
  end.

Definition Rep_Hash (r : Rep) : Z :=
  match r with
  | ServerTimestampTransform_Rep => ServerTimestampTransform.Hash
  | ArrayTransform_Rep type_ elements_ => ArrayTransform.Hash type_ elements_
  | NumericIncrementTransform_Rep operand_ =>
      NumericIncrementTransform.Hash operand_
  end.

(** [operator==(const TransformOperation&, const TransformOperation&)]. *)
Definition TransformOperation_eq (lhs rhs : TransformOperation)
    : option bool :=
  match rep_ lhs with
  | None => Some (bool_decide (rep_ rhs = None))
  | Some l =>
      match rep_ rhs with
      | None => Some false
      | Some r => Rep_Equals l r
      end
  end.

(** Modelled from the spec: the member functions of the dispatch shell are
    defined in the header; the shell "forwards equality, hashing, string
    conversion, and the three core operations" to its representation, which
    must be there. *)
Definition TransformOperation_type (op : TransformOperation)
    : option Type_ :=
  Rep_type <$> rep_ op.

Definition TransformOperation_ApplyToLocalView (op : TransformOperation)
    (previous_value : option Value) (local_write_time : Timestamp)
    : option Value :=
  r ← rep_ op; Rep_ApplyToLocalView r previous_value local_write_time.

Definition TransformOperation_ApplyToRemoteDocument
    (op : TransformOperation) (previous_value : option Value)
    (transform_result : Value) : option Value :=
  r ← rep_ op; Rep_ApplyToRemoteDocument r previous_value transform_result.

(** The outer [option] is the call, the inner one the [absl::optional] it
    returns. *)
Definition TransformOperation_ComputeBaseValue (op : TransformOperation)
    (previous_value : option Value) : option (option Value) :=
  r ← rep_ op; Some (Rep_ComputeBaseValue r previous_value).

Definition TransformOperation_Hash (op : TransformOperation) : option Z :=
  Rep_Hash <$> rep_ op.

End Dispatch.

(** The virtual [ToString()]. *)
Definition Rep_ToString (value_ToString : Value → string)
    (elements_ToString : list Value → string) (r : Rep) : string :=
  match r with
  | ServerTimestampTransform_Rep => ServerTimestampTransform.ToString
  | ArrayTransform_Rep type_ elements_ =>
      ArrayTransform.ToString elements_ToString type_ elements_
  | NumericIncrementTransform_Rep operand_ =>
      NumericIncrementTransform.ToString value_ToString operand_
  end.

(** Modelled from the spec: the "default-constructed empty shell", an
    operation with no representation. *)
Definition empty_shell : TransformOperation := {| rep_ := None |}.

(** The operations the three public constructors build. *)
Inductive constructed : TransformOperation → Prop :=
| constructed_ServerTimestamp :
    constructed ServerTimestampTransform.new
| constructed_Array type elements op :
    ArrayTransform.new type elements = Some op → constructed op
| constructed_NumericIncrement operand op :
    NumericIncrementTransform.new operand = Some op → constructed op.

(** The same, on the representation a constructed operation points to. *)
Definition constructed_Rep (r : Rep) : bool :=
  match r with
  | ServerTimestampTransform_Rep => true
  | ArrayTransform_Rep type_ _ => IsArrayTransform type_
  | NumericIncrementTransform_Rep operand_ => is_number operand_
  end.

(** ** A structural instance of the value interface *)

(** Induction on field values, through the containers they nest in. *)
Section Value_ind.
Variable P : Value → Prop.
Hypothesis HNull : P FromNull.
Hypothesis HBoolean : ∀ b, P (FromBoolean b).
Hypothesis HInteger : ∀ i, P (FromInteger i).
Hypothesis HDouble : ∀ d, P (FromDouble d).
Hypothesis HTimestamp : ∀ ts, P (FromTimestamp ts).
Hypothesis HServerTimestamp :
  ∀ ts prev, from_option P True prev → P (FromServerTimestamp ts prev).
Hypothesis HString : ∀ s, P (FromString s).
Hypothesis HArray : ∀ l, Forall P l → P (FromArray l).
Hypothesis HMap : ∀ m, Forall (λ kv, P kv.2) m → P (FromMap m).

Fixpoint Value_ind (v : Value) : P v :=
  match v with
  | FromNull => HNull
  | FromBoolean b => HBoolean b
  | FromInteger i => HInteger i
  | FromDouble d => HDouble d
  | FromTimestamp ts => HTimestamp ts
  | FromServerTimestamp ts prev =>
      HServerTimestamp ts prev
        match prev with Some p => Value_ind p | None => I end
  | FromString s => HString s
  | FromArray l =>
      HArray l
        ((fix go (l : list Value) : Forall P l :=
            match l with
            | [] => Forall_nil_2 P
            | x :: l' => Forall_cons_2 P x l' (Value_ind x) (go l')
            end) l)
  | FromMap m =>
      HMap m
        ((fix go (m : list (string * Value)) : Forall (λ kv, P kv.2) m :=
            match m with
            | [] => Forall_nil_2 _
            | kv :: m' =>
                Forall_cons_2 (λ kv, P kv.2) kv m' (Value_ind kv.2) (go m')
            end) m)
  end.
End Value_ind.

Module StructuralValue.

#[global] Instance Timestamp_eq_dec : EqDecision Timestamp.
Proof. solve_decision. Defined.

#[global] Instance spec_float_eq_dec : EqDecision spec_float.
Proof. solve_decision. Defined.

Definition option_eqb {A} (f : A → A → bool) (x y : option A) : bool :=
  match x, y with
  | Some a, Some b => f a b
  | None, None => true
  | _, _ => false
  end.

Definition list_eqb {A} (f : A → A → bool) : list A → list A → bool :=
  fix go l k :=
    match l, k with
    | [], [] => true
    | a :: l', b :: k' => f a b && go l' k'
    | _, _ => false
    end.

(** Modelled from the spec: "value/deep equality of the field-value type",
    here equality of the tag and, recursively, of the payload; doubles are
    compared by their IEEE 754 datum. *)
Fixpoint Value_eqb (a b : Value) : bool :=
  match a, b with
  | FromNull, FromNull => true
  | FromBoolean x, FromBoolean y => bool_decide (x = y)
  | FromInteger x, FromInteger y => bool_decide (x = y)
  | FromDouble x, FromDouble y => bool_decide (Prim2SF x = Prim2SF y)
  | FromTimestamp x, FromTimestamp y => bool_decide (x = y)
  | FromServerTimestamp x p, FromServerTimestamp y q =>
      bool_decide (x = y) && option_eqb Value_eqb p q
  | FromString x, FromString y => bool_decide (x = y)
  | FromArray l, FromArray k => list_eqb Value_eqb l k
  | FromMap m, FromMap n =>
      list_eqb (λ kv kw, bool_decide (kv.1 = kw.1) && Value_eqb kv.2 kw.2) m n
  | _, _ => false
  end.

Definition spec_float_hash (f : spec_float) : Z :=
  match f with
  | S754_zero _ => 0
  | S754_infinity s => if s then 1 else 2
  | S754_nan => 3
  | S754_finite s m e => size_t_wrap (Z.pos m + e)
  end.

Definition Timestamp_hash (ts : Timestamp) : Z :=
  size_t_wrap (31 * seconds ts + nanoseconds ts).

(** Modelled from the spec: a hash of field values consistent with their
    equality, mixing the parts sequentially the way the transforms do. *)
Fixpoint Value_hash (v : Value) : Z :=
  match v with
  | FromNull => 0
  | FromBoolean b => if b then 1231 else 1237
  | FromInteger i => size_t_wrap i
  | FromDouble d => spec_float_hash (Prim2SF d)
  | FromTimestamp ts => Timestamp_hash ts
  | FromServerTimestamp ts prev =>
      size_t_wrap (31 * Timestamp_hash ts + from_option Value_hash 0 prev)
  | FromString s => Z.of_nat (String.length s)
  | FromArray l =>
      foldl (λ r x, size_t_wrap (31 * r + Value_hash x)) 37 l
  | FromMap m =>
      foldl (λ r kv, size_t_wrap (31 * r + Value_hash kv.2)) 41 m
  end.

Definition ops : ValueOps :=
  {| value_eqb := Value_eqb; value_hash := Value_hash |}.

End StructuralValue.

(** A coarser instance of the value interface: two values are equal when
    they are of the same type. *)
Module TypeTagValue.

Definition ops : ValueOps :=
  {| value_eqb := λ x y,
       bool_decide (google_firestore_v1_Value.type x
                    = google_firestore_v1_Value.type y);
     value_hash := λ _, 0 |}.

End TypeTagValue.

(** Concrete values and operations to run the model on. *)
Module Sample.
Definition a : Value := FromInteger 1.
Definition b : Value := FromString "b".
Definition now : Timestamp := {| seconds := 1572393600; nanoseconds := 0 |}.
Definition union_op : TransformOperation :=
  {| rep_ := Some (ArrayTransform_Rep ArrayUnion [a; b]) |}.
Definition remove_op : TransformOperation :=
  {| rep_ := Some (ArrayTransform_Rep ArrayRemove [a]) |}.
Definition increment_op : TransformOperation :=
  {| rep_ := Some (NumericIncrementTransform_Rep (FromInteger 3)) |}.
End Sample.

(** ** The array transforms in the words of the spec *)
Section ArraySpec.
Context `{ValueOps}.

(** "if it is present and is an array, start from a mutable copy of its
    elements; otherwise start from an empty sequence". *)
Definition coerced_spec (previous_value : option Value) : list Value :=
  match previous_value with
  | Some (FromArray elements) => elements
  | _ => []
  end.

(** "remove every position equal to it, compacting the sequence". *)
Definition remove_candidate (result : list Value) (element : Value)
    : list Value :=
  filter (λ x, value_eqb element x = false) result.

(** "for each candidate element, in order, ... then continue to the next
    candidate element against the already-reduced result". *)
Definition removal_spec (result candidates : list Value) : list Value :=
  foldl remove_candidate result candidates.

(** "append it to the result only if no element already in the result is
    equal to it". *)
Definition union_candidate (result : list Value) (element : Value)
    : list Value :=
  if decide (Exists (λ x, value_eqb x element = true) result)
  then result
  else result ++ [element].

(** "for each candidate element, in the order given". *)
Definition union_spec (result candidates : list Value) : list Value :=
  foldl union_candidate result candidates.

(** No element of a sequence is equal to a later one. *)
Fixpoint pairwise_unequal (l : list Value) : Prop :=
  match l with
  | [] => True
  | x :: l' => Forall (λ y, value_eqb x y = false) l' ∧ pairwise_unequal l'
  end.

(** "same candidate-element sequence in the same order": equal position by
    position, the other sequence first. *)
Definition elements_equal (other_elements elements : list Value) : Prop :=
  Forall2 (λ a b, value_eqb a b = true) other_elements elements.

#[global] Instance elements_equal_dec : RelDecision elements_equal.
Proof. unfold elements_equal. intros l k. apply _. Defined.

(** "true iff same variant tag and payload-equal per variant rules": all
    server timestamps are equal, array transforms by tag and candidate
    sequence, numeric increments by operand. *)
Definition Equals_spec (r other : Rep) : bool :=
  match r, other with
  | ServerTimestampTransform_Rep, ServerTimestampTransform_Rep => true
  | ArrayTransform_Rep type_ elements_,
    ArrayTransform_Rep other_type other_elements =>
      bool_decide (other_type = type_
                   ∧ elements_equal other_elements elements_)
  | NumericIncrementTransform_Rep operand_,
    NumericIncrementTransform_Rep other_operand =>
      value_eqb operand_ other_operand
  | _, _ => false
  end.

End ArraySpec.

(** * Properties *)

(** ** Array transforms *)
Section ArrayFacts.
Context `{ValueOps}.

Lemma Coerced_spec previous_value :
  ArrayTransform.Coercedgoogle_firestore_v1_ValuesArray previous_value
  = Some (coerced_spec previous_value).
Proof. by destruct previous_value as [[]|]. Qed.

(** From position [i] on, the erase loop keeps what is before [i] and
    filters the rest, whenever the fuel covers what is left to scan. *)
Lemma erase_loop_filter fuel element result i :
  (length result - i ≤ fuel)%nat →
  ArrayTransform.erase_loop fuel element result i
  = Some (take i result ++ remove_candidate (drop i result) element).
Proof.
  revert result i.
  induction fuel as [|fuel IH]; intros result i Hfuel; simpl.
  - case_decide; [lia|].
    rewrite take_ge, drop_ge by lia. by rewrite app_nil_r.
  - case_decide as Hi.
    + destruct (lookup_lt_is_Some_2 result i Hi) as [x Hx].
      rewrite Hx; simpl. rewrite (drop_S _ _ _ Hx).
      unfold remove_candidate.
      destruct (value_eqb element x) eqn:Heq.
      * rewrite IH by (rewrite length_delete by eauto; lia).
        rewrite filter_cons_False by congruence.
        rewrite delete_take_drop, take_app_le, drop_app_ge
          by (rewrite ?length_take; lia).
        rewrite take_take, length_take.
        replace (i `min` i)%nat with i by lia.
        replace (i - i `min` length result)%nat with 0%nat by lia.
        done.
      * rewrite IH by lia.
        rewrite filter_cons_True by done.
        rewrite (take_S_r _ _ _ Hx), <- app_assoc. done.
    + rewrite take_ge, drop_ge by lia. by rewrite app_nil_r.
Qed.

Lemma erase_loop_spec element result :
  ArrayTransform.erase_loop (length result) element result 0
  = Some (remove_candidate result element).
Proof. rewrite erase_loop_filter by lia. by rewrite take_0, drop_0. Qed.

Lemma c_find_end result element :
  ArrayTransform.c_find result element = length result
  ↔ ¬ Exists (λ x, value_eqb x element = true) result.
Proof.
  induction result as [|x result IH]; simpl.
  - split; [|done]. intros _ Hex. inversion Hex.
  - rewrite Exists_cons. destruct (value_eqb x element) eqn:Heq.
    + split; [done|]. intros Hno. destruct Hno. by left.
    + split.
      * intros Hlen [Hx|Hex]; [congruence|]. apply IH; [lia|done].
      * intros Hno. f_equal. apply IH. intros Hex. apply Hno. by right.
Qed.

Lemma Apply_body_union result element :
  ArrayTransform.Apply_body ArrayUnion result element
  = Some (union_candidate result element).
Proof.
  unfold ArrayTransform.Apply_body, union_candidate.
  rewrite bool_decide_eq_true_2 by done.
  case_bool_decide as Hpos; rewrite c_find_end in Hpos;
    case_decide; done.
Qed.

Lemma Apply_body_remove result element :
  ArrayTransform.Apply_body ArrayRemove result element
  = Some (remove_candidate result element).
Proof.
  unfold ArrayTransform.Apply_body.
  rewrite bool_decide_eq_false_2, bool_decide_eq_true_2 by done.
  apply erase_loop_spec.
Qed.

Lemma Apply_loop_union candidates result :
  ArrayTransform.Apply_loop ArrayUnion candidates result
  = Some (union_spec result candidates).
Proof.
  revert result. induction candidates as [|e candidates IH]; intros result.
  - done.
  - simpl. rewrite Apply_body_union. simpl. apply IH.
Qed.

Lemma Apply_loop_remove candidates result :
  ArrayTransform.Apply_loop ArrayRemove candidates result
  = Some (removal_spec result candidates).
Proof.
  revert result. induction candidates as [|e candidates IH]; intros result.
  - done.
  - simpl. rewrite Apply_body_remove. simpl. apply IH.
Qed.

Lemma Apply_union candidates previous_value :
  ArrayTransform.Apply ArrayUnion candidates previous_value
  = Some (FromArray (union_spec (coerced_spec previous_value) candidates)).
Proof.
  unfold ArrayTransform.Apply. rewrite Coerced_spec. simpl.
  by rewrite Apply_loop_union.
Qed.

Lemma Apply_remove candidates previous_value :
  ArrayTransform.Apply ArrayRemove candidates previous_value
  = Some (FromArray (removal_spec (coerced_spec previous_value) candidates)).
Proof.
  unfold ArrayTransform.Apply. rewrite Coerced_spec. simpl.
  by rewrite Apply_loop_remove.
Qed.

Lemma remove_candidate_absent result element :
  Forall (λ x, value_eqb element x = false) result →
  remove_candidate result element = result.
Proof.
  unfold remove_candidate. induction 1 as [|x result Hx _ IH]; [done|].
  rewrite filter_cons_True by done. by f_equal.
Qed.

(** What a union pass appends: a subsequence of the candidates, free of
    repetitions and of anything the result already had. *)
Lemma union_spec_appended candidates result :
  ∃ appended,
    union_spec result candidates = result ++ appended
    ∧ appended `sublist_of` candidates
    ∧ pairwise_unequal appended
    ∧ Forall (λ y, Forall (λ x, value_eqb x y = false) result) appended.
Proof.
  revert result. induction candidates as [|e candidates IH]; intros result.
  - exists []. simpl. by rewrite app_nil_r.
  - change (union_spec result (e :: candidates))
      with (union_spec (union_candidate result e) candidates).
    unfold union_candidate. case_decide as Hex.
    + destruct (IH result) as (appended & Heq & Hsub & Hpw & Hnew).
      exists appended. repeat split; try done. by apply sublist_cons.
    + destruct (IH (result ++ [e])) as (appended & Heq & Hsub & Hpw & Hnew).
      exists (e :: appended). repeat split.
      * by rewrite Heq, <- app_assoc.
      * by apply sublist_skip.
      * eapply Forall_impl; [exact Hnew|]. simpl. intros y Hy.
        rewrite Forall_app, Forall_singleton in Hy. tauto.
      * done.
      * constructor.
        -- apply Forall_forall. intros x Hx.
           destruct (value_eqb x e) eqn:Heqb; [|done].
           destruct Hex. apply Exists_exists. eauto.
        -- eapply Forall_impl; [exact Hnew|]. simpl. intros y Hy.
           rewrite Forall_app in Hy. tauto.
Qed.

End ArrayFacts.

(** ** The structural instance obeys the laws *)
Section StructuralLaws.
Import StructuralValue.

Lemma list_eqb_refl {A} (f : A → A → bool) l :
  Forall (λ x, f x x = true) l → list_eqb f l l = true.
Proof. induction 1 as [|x l Hx _ IH]; simpl; [done|]. by rewrite Hx, IH. Qed.

Lemma list_eqb_sym {A} (f : A → A → bool) l :
  Forall (λ x, ∀ y, f x y = f y x) l → ∀ k, list_eqb f l k = list_eqb f k l.
Proof.
  induction 1 as [|x l Hx _ IH]; intros [|y k]; simpl; try done.
  by rewrite Hx, IH.
Qed.

Lemma list_eqb_foldl {A} (f : A → A → bool) (step : Z → A → Z) l :
  Forall (λ x, ∀ y, f x y = true → ∀ r, step r x = step r y) l →
  ∀ k r, list_eqb f l k = true → foldl step r l = foldl step r k.
Proof.
  induction 1 as [|x l Hx _ IH]; intros [|y k] r; simpl; try done.
  intros [Hxy Hlk]%andb_prop. rewrite (Hx y Hxy r). by apply IH.
Qed.

Lemma Value_eqb_refl x : Value_eqb x x = true.
Proof.
  induction x as [| | | | |ts [p|] IH| |l IH|m IH] using Value_ind; simpl;
    rewrite ?bool_decide_eq_true_2 by done; try done.
  - by apply list_eqb_refl.
  - apply list_eqb_refl. eapply Forall_impl; [exact IH|]. simpl.
    intros kv Hkv. by rewrite bool_decide_eq_true_2, Hkv.
Qed.

Lemma bool_decide_sym {A} `{EqDecision A} (x y : A) :
  bool_decide (x = y) = bool_decide (y = x).
Proof. apply bool_decide_ext. naive_solver. Qed.

Lemma Value_eqb_sym x y : Value_eqb x y = Value_eqb y x.
Proof.
  revert y.
  induction x as [| | | | |ts [p|] IH| |l IH|m IH] using Value_ind;
    intros [| | | | |ts' [q|]| |l'|m']; simpl; try done;
    try apply bool_decide_sym.
  - by rewrite (bool_decide_sym ts), IH.
  - by rewrite (bool_decide_sym ts).
  - by rewrite (bool_decide_sym ts).
  - by rewrite (bool_decide_sym ts).
  - by apply list_eqb_sym.
  - apply list_eqb_sym. eapply Forall_impl; [exact IH|]. simpl.
    intros kv Hkv kw. by rewrite (bool_decide_sym kv.1), Hkv.
Qed.

Lemma Value_hash_eqb x y : Value_eqb x y = true → Value_hash x = Value_hash y.
Proof.
  revert y.
  induction x as [| | | | |ts [p|] IH| |l IH|m IH] using Value_ind;
    intros [| | | | |ts' [q|]| |l'|m']; simpl; try done;
    rewrite ?andb_true_iff, ?bool_decide_eq_true;
    try (by intros ->); try (by intros [-> ?]).
  - intros [-> Hpq]. by rewrite (IH q Hpq).
  - apply list_eqb_foldl. eapply Forall_impl; [exact IH|]. simpl.
    intros x Hx y Hxy r. by rewrite (Hx y Hxy).
  - apply list_eqb_foldl. eapply Forall_impl; [exact IH|]. simpl.
    intros kv Hkv kw [_ Hxy]%andb_prop r. by rewrite (Hkv _ Hxy).
Qed.

Lemma StructuralValue_laws : @ValueLaws ops.
Proof.
  split; [exact Value_eqb_refl | exact Value_eqb_sym | exact Value_hash_eqb].
Qed.

End StructuralLaws.

(** ** Claims on the array transforms *)
Section ArrayClaims.
Context `{ValueOps}.

Lemma removal_spec_nil candidates : removal_spec [] candidates = [].
Proof. induction candidates as [|e candidates IH]; [done|]. exact IH. Qed.

(** An array transform never aborts: it returns the array the spec
    describes for its kind. *)
Lemma Apply_array type_ elements previous_value :
  IsArrayTransform type_ = true →
  ArrayTransform.Apply type_ elements previous_value
  = Some (FromArray
            (if bool_decide (type_ = ArrayUnion)
             then union_spec (coerced_spec previous_value) elements
             else removal_spec (coerced_spec previous_value) elements)).
Proof.
  destruct type_; try done; intros _.
  - apply Apply_union.
  - apply Apply_remove.
Qed.

(** C1: applying ArrayRemove processes the candidates in order and, for
    each, removes every position of the current result equal to it before
    moving on; a candidate equal to no element of the result changes
    nothing; ArrayRemove([a]) applied to [a, b, a] yields [b]. *)
Theorem ArrayRemove_removes_every_occurrence
    (previous_value : option Value) (elements result : list Value)
    (element a b : Value) :
  ArrayTransform.Apply ArrayRemove elements previous_value
  = Some (FromArray (removal_spec (coerced_spec previous_value) elements))
  ∧ (Forall (λ x, value_eqb element x = false) result →
     ArrayTransform.Apply_body ArrayRemove result element = Some result)
  ∧ (value_eqb a a = true → value_eqb a b = false →
     ArrayTransform.Apply ArrayRemove [a] (Some (FromArray [a; b; a]))
     = Some (FromArray [b])).
Proof.
  split; [apply Apply_remove|split].
  - intros Habsent. rewrite Apply_body_remove.
    by rewrite remove_candidate_absent.
  - intros Haa Hab. rewrite Apply_remove. simpl.
    unfold removal_spec, remove_candidate. simpl.
    rewrite filter_cons_False by congruence.
    rewrite filter_cons_True by congruence.
    rewrite filter_cons_False by congruence.
    done.
Qed.

(** C2: applying ArrayUnion processes the candidates in order and appends
    a candidate only if no element already in the result, earlier appended
    ones included, is equal to it; what was in the previous array stays as
    it was, what is appended has no repetition; ArrayUnion([a, a, b])
    applied to [a] yields [a, b]. *)
Theorem ArrayUnion_appends_absent_candidates
    (previous_value : option Value) (elements : list Value) (a b : Value) :
  ArrayTransform.Apply ArrayUnion elements previous_value
  = Some (FromArray (union_spec (coerced_spec previous_value) elements))
  ∧ (∃ appended,
       union_spec (coerced_spec previous_value) elements
       = coerced_spec previous_value ++ appended
       ∧ appended `sublist_of` elements
       ∧ pairwise_unequal appended
       ∧ Forall (λ y, Forall (λ x, value_eqb x y = false)
                              (coerced_spec previous_value)) appended)
  ∧ (value_eqb a a = true → value_eqb a b = false →
     ArrayTransform.Apply ArrayUnion [a; a; b] (Some (FromArray [a]))
     = Some (FromArray [a; b])).
Proof.
  split; [apply Apply_union|split; [apply union_spec_appended|]].
  intros Haa Hab. rewrite Apply_union. simpl.
  assert (union_candidate [a] a = [a]) as Hdup.
  { unfold union_candidate. rewrite decide_True; [done|].
    apply Exists_cons. by left. }
  assert (union_candidate [a] b = [a; b]) as Hnew.
  { unfold union_candidate. rewrite decide_False; [done|].
    rewrite Exists_cons, Exists_nil. intros [?|[]]. congruence. }
  unfold union_spec. simpl. by rewrite !Hdup, Hnew.
Qed.


(** C8: for an array transform, union or removal, local and remote
    application return one and the same value, whatever the local write
    time and the transform result are. *)
Theorem array_transform_local_remote_agree
    (type : Type_) (elements : list Value) (op : TransformOperation)
    (previous_value : option Value)
    (Hop : ArrayTransform.new type elements = Some op) :
  ∃ value,
    ∀ (local_write_time : Timestamp) (transform_result : Value),
      TransformOperation_ApplyToLocalView op previous_value local_write_time
      = Some value
      ∧ TransformOperation_ApplyToRemoteDocument
          op previous_value transform_result
        = Some value.
Proof.
  unfold ArrayTransform.new in Hop.
  destruct (IsArrayTransform type) eqn:Htype; [|done].
  injection Hop as <-. eexists. intros local_write_time transform_result.
  unfold TransformOperation_ApplyToLocalView,
    TransformOperation_ApplyToRemoteDocument; simpl.
  unfold ArrayTransform.ApplyToLocalView,
    ArrayTransform.ApplyToRemoteDocument.
  by rewrite (Apply_array _ _ _ Htype).
Qed.

(** C10: what an array transform returns, locally or remotely, is of
    Array type, whatever the previous value was; ArrayRemove applied to the
    integer 5 yields the empty array. *)
Theorem array_transform_returns_array
    (type : Type_) (elements : list Value) (op : TransformOperation)
    (previous_value : option Value) (local_write_time : Timestamp)
    (transform_result : Value)
    (Hop : ArrayTransform.new type elements = Some op) :
  (∃ value,
     TransformOperation_ApplyToLocalView op previous_value local_write_time
     = Some value
     ∧ google_firestore_v1_Value.type value
       = google_firestore_v1_Value.Array)
  ∧ (∃ value,
       TransformOperation_ApplyToRemoteDocument
         op previous_value transform_result
       = Some value
       ∧ google_firestore_v1_Value.type value
         = google_firestore_v1_Value.Array)
  ∧ ArrayTransform.Apply ArrayRemove elements (Some (FromInteger 5))
    = Some (FromArray []).
Proof.
  unfold ArrayTransform.new in Hop.
  destruct (IsArrayTransform type) eqn:Htype; [|done].
  injection Hop as <-.
  unfold TransformOperation_ApplyToLocalView,
    TransformOperation_ApplyToRemoteDocument; simpl.
  unfold ArrayTransform.ApplyToLocalView,
    ArrayTransform.ApplyToRemoteDocument.
  rewrite (Apply_array _ _ _ Htype).
  repeat split; [by eexists..|].
  rewrite Apply_remove. simpl. by rewrite removal_spec_nil.
Qed.

End ArrayClaims.

(** ** Claims on the numeric increment *)
Section NumericFacts.

Lemma int64_wrap_id z : int64_range z → int64_wrap z = z.
Proof.
  unfold int64_range, int64_wrap, INT64_MIN, INT64_MAX. intros Hz.
  rewrite Z.mod_small; lia.
Qed.

Lemma saturating_sum_range x y : int64_range (saturating_sum x y).
Proof.
  unfold saturating_sum, int64_range, INT64_MIN, INT64_MAX.
  repeat case_decide; lia.
Qed.

(** The guards of [SafeIncrement] keep every intermediate result in range,
    so that no subtraction or addition wraps. *)
Lemma SafeIncrement_saturating x y :
  int64_range x → int64_range y →
  NumericIncrementTransform.SafeIncrement x y = saturating_sum x y.
Proof.
  unfold int64_range, INT64_MIN, INT64_MAX. intros Hx Hy.
  unfold NumericIncrementTransform.SafeIncrement, saturating_sum,
    LONG_MAX, LONG_MIN, int64_sub, int64_add, INT64_MIN, INT64_MAX.
  assert (∀ z, - 2 ^ 63 <= z <= 2 ^ 63 - 1 → int64_wrap z = z) as Hwrap.
  { intros z Hz. apply int64_wrap_id.
    unfold int64_range, INT64_MIN, INT64_MAX. lia. }
  destruct (Z.lt_trichotomy x 0) as [Hneg|[->|Hpos]].
  - rewrite (bool_decide_eq_false_2 (x > 0)) by lia.
    rewrite (bool_decide_eq_true_2 (x < 0)) by lia. cbn [andb].
    rewrite (Hwrap (- 2 ^ 63 - x)) by lia.
    case_bool_decide; repeat case_decide; try lia.
    apply Hwrap. lia.
  - rewrite (bool_decide_eq_false_2 (0 > 0)) by lia.
    rewrite (bool_decide_eq_false_2 (0 < 0)) by lia. cbn [andb].
    repeat case_decide; try lia.
    apply Hwrap. lia.
  - rewrite (bool_decide_eq_true_2 (x > 0)) by lia.
    rewrite (bool_decide_eq_false_2 (x < 0)) by lia. cbn [andb].
    rewrite (Hwrap (2 ^ 63 - 1 - x)) by lia.
    case_bool_decide; repeat case_decide; try lia.
    apply Hwrap. lia.
Qed.

(** C3: when the resolved base and the operand are both integers, local
    application returns their sum under saturating signed 64-bit
    arithmetic: the maximum on positive overflow, the minimum on negative
    overflow; the maximum incremented by 1 stays the maximum. *)
Theorem NumericIncrement_integers_saturate
    (previous_value : option Value) (local_write_time : Timestamp)
    (base operand : Z)
    (Hbase : NumericIncrementTransform.ComputeBaseValue previous_value
             = Some (FromInteger base))
    (Hbase_range : int64_range base) (Hoperand_range : int64_range operand) :
  NumericIncrementTransform.ApplyToLocalView
    (FromInteger operand) previous_value local_write_time
  = Some (FromInteger (saturating_sum base operand))
  ∧ int64_range (saturating_sum base operand)
  ∧ NumericIncrementTransform.ApplyToLocalView
      (FromInteger 1) (Some (FromInteger INT64_MAX)) local_write_time
    = Some (FromInteger INT64_MAX).
Proof.
  split; [|split; [apply saturating_sum_range|done]].
  unfold NumericIncrementTransform.ApplyToLocalView. rewrite Hbase. simpl.
  by rewrite SafeIncrement_saturating.
Qed.

(** C4: [ComputeBaseValue] is [nullopt] for the server timestamp and for
    both array transforms, whatever the previous value; for the numeric
    increment it is always a number: the previous value when that is
    present and numeric, the integer zero otherwise. *)
Theorem ComputeBaseValue_by_kind
    (previous_value : option Value) (elements : list Value)
    (operand v w : Value)
    (Hv : is_number v = true) (Hw : is_number w = false) :
  Rep_ComputeBaseValue ServerTimestampTransform_Rep previous_value = None
  ∧ Rep_ComputeBaseValue (ArrayTransform_Rep ArrayUnion elements)
      previous_value = None
  ∧ Rep_ComputeBaseValue (ArrayTransform_Rep ArrayRemove elements)
      previous_value = None
  ∧ (∃ base,
       Rep_ComputeBaseValue (NumericIncrementTransform_Rep operand)
         previous_value = Some base
       ∧ is_number base = true)
  ∧ Rep_ComputeBaseValue (NumericIncrementTransform_Rep operand) (Some v)
    = Some v
  ∧ Rep_ComputeBaseValue (NumericIncrementTransform_Rep operand) (Some w)
    = Some (FromInteger 0)
  ∧ Rep_ComputeBaseValue (NumericIncrementTransform_Rep operand) None
    = Some (FromInteger 0).
Proof.
  simpl. unfold NumericIncrementTransform.ComputeBaseValue.
  rewrite Hv, Hw. repeat (split; [done|]). split; [|done].
  destruct previous_value as [p|]; [|by eexists].
  destruct (is_number p) eqn:Hp; by eexists.
Qed.

Lemma ComputeBaseValue_number previous_value base :
  NumericIncrementTransform.ComputeBaseValue previous_value = Some base →
  is_number base = true.
Proof.
  unfold NumericIncrementTransform.ComputeBaseValue.
  destruct previous_value as [p|]; [|by intros [= <-]].
  destruct (is_number p) eqn:Hp; by intros [= <-].
Qed.

(** *** The conversion of a 64-bit integer to [double]

    [binary_normalize] shifts the mantissa to 53 bits and rounds what it
    drops; the lemmas below follow it through both cases and give the integer
    the resulting double holds. *)

(** One right shift of the rounding record, in arithmetic. *)
Lemma shr_1_arith m r s :
  0 <= m →
  shr_1 {| shr_m := m; shr_r := r; shr_s := s |}
  = {| shr_m := m / 2; shr_r := Z.odd m; shr_s := r || s |}.
Proof.
  intros Hm. rewrite <- Z.div2_div.
  destruct m as [|[p|p|]|]; try done; lia.
Qed.

(** The iteration of the library is the iteration over [nat]. *)
Lemma iter_pos_nat {A} (f : A → A) p : ∀ x,
  SpecFloat.iter_pos f p x = Nat.iter (Pos.to_nat p) f x.
Proof.
  induction p as [p IH|p IH|]; intros x; cbn [SpecFloat.iter_pos].
  - rewrite !IH, Pos2Nat.inj_xI.
    replace (S (2 * Pos.to_nat p)) with (Pos.to_nat p + (Pos.to_nat p + 1))%nat
      by lia.
    rewrite !Nat.iter_add. done.
  - rewrite !IH, Pos2Nat.inj_xO.
    replace (2 * Pos.to_nat p)%nat with (Pos.to_nat p + Pos.to_nat p)%nat
      by lia.
    by rewrite Nat.iter_add.
  - done.
Qed.

(** After [n + 1] shifts the record holds the quotient, the last bit shifted
    out and whether anything below it was set. *)
Lemma iter_shr_1 (n : nat) (a : Z) :
  0 <= a →
  Nat.iter (S n) shr_1 {| shr_m := a; shr_r := false; shr_s := false |}
  = {| shr_m := a / 2 ^ (Z.of_nat n + 1);
       shr_r := Z.testbit a (Z.of_nat n);
       shr_s := negb (a mod 2 ^ Z.of_nat n =? 0) |}.
Proof.
  intros Ha. induction n as [|n IH].
  - rewrite Nat.iter_succ. change (Nat.iter 0 shr_1 ?x) with x.
    rewrite shr_1_arith by done.
    change (2 ^ (Z.of_nat 0 + 1)) with 2. change (2 ^ Z.of_nat 0) with 1. f_equal.
    all: try (symmetry; apply Z.bit0_odd). all: try by rewrite Z.mod_1_r.
  - rewrite Nat.iter_succ, IH.
    rewrite shr_1_arith by (apply Z.div_pos; lia).
    rewrite Nat2Z.inj_succ. set (k := Z.of_nat n).
    assert (0 <= k) as Hk by lia.
    assert (0 < 2 ^ k) as Hpow by (apply Z.pow_pos_nonneg; lia).
    assert (2 ^ (k + 1) = 2 ^ k * 2) as E0
      by (rewrite Z.pow_add_r by lia; reflexivity).
    assert (2 ^ (Z.succ k + 1) = 2 ^ (k + 1) * 2) as ->
      by (replace (Z.succ k + 1) with (Z.succ (k + 1)) by lia;
          rewrite Z.pow_succ_r by lia; lia).
    assert (a / 2 ^ (k + 1) / 2 = a / (2 ^ (k + 1) * 2)) as ->
      by (apply Z.div_div; lia).
    assert (Z.odd (a / 2 ^ (k + 1)) = Z.testbit a (Z.succ k)) as ->.
    { rewrite (Z.testbit_odd a (Z.succ k)), Z.shiftr_div_pow2 by lia.
      repeat f_equal; lia. }
    assert (Z.testbit a k || negb (a mod 2 ^ k =? 0)
            = negb (a mod 2 ^ Z.succ k =? 0)) as ->; [|done].
    rewrite (Z.pow_succ_r 2 k) by lia.
    rewrite (Z.mul_comm 2), Z.rem_mul_r by lia.
    rewrite <- Z.testbit_spec' by lia.
    pose proof (Z.mod_pos_bound a (2 ^ k) Hpow).
    destruct (Z.testbit a k); cbn [Z.b2z];
      repeat match goal with
             | |- context [?x =? 0] => destruct (Z.eqb_spec x 0)
             end; simpl; try done; exfalso; lia.
Qed.

Lemma digits2_pos_size p : digits2_pos p = Pos.size p.
Proof. induction p; simpl; congruence. Qed.

Lemma Zdigits2_log2 p : Z.pos (digits2_pos p) = Z.log2 (Z.pos p) + 1.
Proof. rewrite digits2_pos_size. destruct p; simpl; lia. Qed.

Lemma fexp_binary64 e : -1021 <= e → fexp prec emax e = e - 53.
Proof. unfold fexp, emin, prec, emax. lia. Qed.

Lemma iter_xO_value p k : Z.pos (Pos.iter xO p k) = Z.pos p * 2 ^ Z.pos k.
Proof.
  induction k as [|k IH] using Pos.peano_ind.
  - simpl. lia.
  - rewrite Pos.iter_succ, Pos2Z.inj_xO, IH, Pos2Z.inj_succ, Z.pow_succ_r by lia.
    lia.
Qed.

(** A mantissa of exactly 53 bits is kept as it is. *)
Lemma binary_round_aux_53 s m e :
  Z.log2 (Z.pos m) = 52 → -1074 <= e <= 971 →
  binary_round_aux prec emax s (Z.pos m) e loc_Exact = S754_finite s m e.
Proof.
  intros Hm He. unfold binary_round_aux, shr_fexp.
  cbn [Zdigits2 shr_record_of_loc]. rewrite Zdigits2_log2, Hm.
  rewrite fexp_binary64 by lia.
  replace (52 + 1 + e - 53 - e) with 0 by lia.
  cbn [shr loc_of_shr_record shr_m shr_r shr_s round_nearest_even
       Zdigits2 shr_record_of_loc].
  rewrite Zdigits2_log2, Hm, fexp_binary64 by lia.
  replace (52 + 1 + e - 53 - e) with 0 by lia.
  cbn [shr shr_m].
  replace (e <=? emax - prec) with true; [done|].
  symmetry. apply Z.leb_le. unfold emax, prec. lia.
Qed.

(** An integer of at most 53 bits is aligned to 53 bits and kept exactly. *)
Lemma binary_round_small s p :
  Z.log2 (Z.pos p) <= 52 →
  ∃ m e,
    binary_round prec emax s p 0 = S754_finite s m e
    ∧ Z.log2 (Z.pos m) = 52 ∧ -52 <= e <= 0
    ∧ Z.pos m = Z.pos p * 2 ^ (- e).
Proof.
  intros HL. pose proof (Z.log2_nonneg (Z.pos p)) as HL0.
  unfold binary_round, shl_align.
  rewrite Zdigits2_log2, fexp_binary64 by lia.
  destruct (Z.log2 (Z.pos p) + 1 + 0 - 53 - 0) as [|k|k] eqn:Hk; [|lia|].
  - exists p, 0. rewrite binary_round_aux_53 by lia.
    split; [done|]. split; [lia|]. split; [lia|]. simpl. lia.
  - exists (Pos.iter xO p k), (Z.log2 (Z.pos p) + 1 + 0 - 53).
    assert (Z.log2 (Z.pos (Pos.iter xO p k)) = 52) as Hlog.
    { rewrite iter_xO_value, Z.log2_mul_pow2 by lia. lia. }
    rewrite binary_round_aux_53 by (done || lia).
    split; [done|]. split; [done|]. split; [lia|].
    rewrite iter_xO_value. do 2 f_equal. lia.
Qed.

(** A longer integer loses its low bits, rounded to the nearest, ties to
    even; a mantissa rounded up to [2^53] moves to the next exponent. *)
Lemma binary_round_large s p :
  53 <= Z.log2 (Z.pos p) <= 900 →
  ∃ m e,
    binary_round prec emax s p 0 = S754_finite s m e
    ∧ Z.log2 (Z.pos m) = 52 ∧ 0 <= e <= 971
    ∧ Z.pos m * 2 ^ e = round_magnitude (Z.pos p).
Proof.
  intros HL. set (a := Z.pos p) in *. set (L := Z.log2 a) in *.
  pose proof (Z.log2_spec a ltac:(done)) as Ha. fold L in Ha.
  unfold binary_round, shl_align. fold a.
  rewrite Zdigits2_log2, fexp_binary64 by (fold a L; lia). fold a L.
  destruct (L + 1 + 0 - 53 - 0) as [|np|np] eqn:Hnp; [lia| |lia].
  unfold binary_round_aux, shr_fexp at 1.
  cbn [Zdigits2 shr_record_of_loc]. 
  rewrite Zdigits2_log2, fexp_binary64 by (fold a L; lia). fold a L.
  replace (L + 1 + 0 - 53 - 0) with (Z.pos np) by lia.
  cbn [shr]. rewrite iter_pos_nat.
  destruct (Pos.to_nat np) as [|n] eqn:Hn; [lia|].
  rewrite iter_shr_1 by done.
  replace (Z.of_nat n + 1) with (Z.pos np) by lia.
  set (N := Z.pos np) in *. set (k := Z.of_nat n) in *.
  assert (N = k + 1) as HNk by lia.
  assert (N = L - 52) as HN by lia.
  assert (0 < 2 ^ k) as Hpowk by (apply Z.pow_pos_nonneg; lia).
  assert (2 ^ N = 2 ^ k * 2) as HpowN
    by (rewrite HNk, Z.pow_add_r by lia; reflexivity).
  assert (2 ^ L = 2 ^ 52 * 2 ^ N) as HpowL
    by (rewrite <- Z.pow_add_r by lia; f_equal; lia).
  assert (2 ^ Z.succ L = 2 ^ 53 * 2 ^ N) as HpowL'
    by (rewrite <- Z.pow_add_r by lia; f_equal; lia).
  set (q := a / 2 ^ N).
  assert (2 ^ 52 <= q < 2 ^ 53) as Hq.
  { split.
    - apply Z.div_le_lower_bound; lia.
    - apply Z.div_lt_upper_bound; lia. }
  (* the remainder, through the round and sticky bits *)
  assert (a mod 2 ^ N
          = a mod 2 ^ k + 2 ^ k * Z.b2z (Z.testbit a k)) as Hr.
  { rewrite HpowN, Z.rem_mul_r by lia. by rewrite <- Z.testbit_spec' by lia. }
  pose proof (Z.mod_pos_bound a (2 ^ k) Hpowk) as Hlow.
  assert (a = q * 2 ^ N + a mod 2 ^ N) as Hdiv.
  { unfold q. rewrite (Z.mul_comm _ (2 ^ N)). apply Z.div_mod. lia. }
  (* the rounded mantissa *)
  cbn [shr_m]. fold q.
  set (m1 := round_nearest_even q
               (loc_of_shr_record
                  {| shr_m := q; shr_r := Z.testbit a k;
                     shr_s := negb (a mod 2 ^ k =? 0) |})).
  assert (m1 * 2 ^ N = round_magnitude a ∧ q <= m1 <= q + 1) as [Hm1 Hm1q].
  { unfold round_magnitude. fold L.
    replace (Z.max 0 (L - 52)) with N by lia. fold q.
    unfold m1. rewrite Hr, HpowN.
    destruct (Z.testbit a k); cbn [Z.b2z];
      destruct (Z.eqb_spec (a mod 2 ^ k) 0) as [Hz|Hz]; cbn [negb];
      cbn [loc_of_shr_record round_nearest_even];
      repeat match goal with
             | |- context [?x <? ?y] => destruct (Z.ltb_spec x y)
             end; try lia; try (destruct (Z.even q)); lia. }
  assert (m1 < 2 ^ 53 ∨ m1 = 2 ^ 53) as [Hm1lt|Hm1eq] by lia.
  - destruct m1 as [|pm|pm] eqn:Hpm; [lia| |lia].
    assert (Z.log2 (Z.pos pm) = 52) as Hlog
      by (apply Z.log2_unique; lia).
    unfold shr_fexp. cbn [Zdigits2 shr_record_of_loc].
    rewrite Zdigits2_log2, Hlog, fexp_binary64 by lia.
    replace (52 + 1 + (0 + N) - 53 - (0 + N)) with 0 by lia.
    cbn [shr shr_m].
    replace (0 + N <=? emax - prec) with true
      by (symmetry; apply Z.leb_le; unfold emax, prec; lia).
    exists pm, (0 + N). split; [done|]. split; [done|]. split; [lia|].
    rewrite <- Hm1. by rewrite Z.add_0_l.
  - rewrite Hm1eq. change (2 ^ 53) with 9007199254740992. unfold shr_fexp.
    cbn [shr_record_of_loc]. change (Zdigits2 9007199254740992) with 54.
    rewrite fexp_binary64 by lia.
    replace (54 + (0 + N) - 53 - (0 + N)) with 1 by lia.
    cbn [shr SpecFloat.iter_pos shr_1 shr_m].
    replace (0 + N + 1 <=? emax - prec) with true
      by (symmetry; apply Z.leb_le; unfold emax, prec; lia).
    eexists _, (0 + N + 1). split; [done|]. split; [done|]. split; [lia|].
    rewrite <- Hm1, Hm1eq.
    replace (0 + N + 1) with (Z.succ N) by lia.
    rewrite Z.pow_succ_r by lia. lia.
Qed.

Lemma round_magnitude_small a :
  0 <= a → Z.log2 a <= 52 → round_magnitude a = a.
Proof.
  intros Ha HL. unfold round_magnitude.
  pose proof (Z.log2_nonneg a).
  replace (Z.max 0 (Z.log2 a - 52)) with 0 by lia.
  change (2 ^ 0) with 1. rewrite Z.mod_1_r, Z.div_1_r. simpl. lia.
Qed.

Lemma binary_round_integer s p :
  Z.log2 (Z.pos p) <= 900 →
  valid_binary (binary_round prec emax s p 0) = true
  ∧ spec_float_integer (binary_round prec emax s p 0)
    = Some (cond_Zopp s (round_magnitude (Z.pos p))).
Proof.
  intros HL.
  assert (∀ m e, Z.log2 (Z.pos m) = 52 → -52 <= e <= 971 →
                 valid_binary (S754_finite s m e) = true) as Hvalid.
  { intros m e Hm He. unfold valid_binary, SpecFloat.valid_binary, bounded, canonical_mantissa.
    rewrite Zdigits2_log2, Hm, fexp_binary64 by lia.
    apply andb_true_intro. split; [apply Z.eqb_eq; lia|].
    apply Z.leb_le. unfold emax, prec. lia. }
  destruct (Z_le_gt_dec (Z.log2 (Z.pos p)) 52) as [Hsmall|Hlarge].
  - destruct (binary_round_small s p Hsmall) as (m & e & -> & Hm & He & Hme).
    split; [apply Hvalid; lia|].
    rewrite round_magnitude_small by lia. unfold spec_float_integer.
    destruct (Z.leb_spec 0 e) as [He0|He0].
    + replace e with 0 in * by lia. simpl in Hme. simpl. do 2 f_equal. lia.
    + assert (0 < 2 ^ (- e)) by (apply Z.pow_pos_nonneg; lia).
      rewrite Hme, Z.mod_mul, Z.div_mul by lia. done.
  - destruct (binary_round_large s p ltac:(lia)) as (m & e & -> & Hm & He & Hme).
    split; [apply Hvalid; lia|].
    unfold spec_float_integer.
    destruct (Z.leb_spec 0 e) as [_|?]; [|lia]. by rewrite Hme.
Qed.

Lemma double_of_int64_nearest (i : Z) :
  - 2 ^ 63 <= i <= 2 ^ 63 - 1 →
  double_integer_value (double_of_int64 i) = Some (round_to_53_bits i).
Proof.
  intros Hi. unfold double_integer_value, double_of_int64, round_to_53_bits.
  destruct i as [|p|p]; [by vm_compute| |].
  - assert (Z.log2 (Z.pos p) <= 900) as HL.
    { assert (Z.log2 (Z.pos p) < 63); [|lia].
      apply Z.log2_lt_pow2; lia. }
    destruct (binary_round_integer false p HL) as [Hvalid Hvalue].
    change (Z.abs (Z.pos p)) with (Z.pos p). cbn [binary_normalize Z.sgn].
    rewrite Prim2SF_SF2Prim by done. rewrite Hvalue. unfold cond_Zopp.
    f_equal; lia.
  - assert (Z.log2 (Z.pos p) <= 900) as HL.
    { assert (Z.log2 (Z.pos p) < 64); [|lia].
      apply Z.log2_lt_pow2; lia. }
    destruct (binary_round_integer true p HL) as [Hvalid Hvalue].
    change (Z.abs (Z.neg p)) with (Z.pos p). cbn [binary_normalize Z.sgn].
    rewrite Prim2SF_SF2Prim by done. rewrite Hvalue. unfold cond_Zopp.
    f_equal; lia.
Qed.


Lemma round_to_53_bits_exact (i : Z) :
  Z.abs i <= 2 ^ 53 → round_to_53_bits i = i.
Proof.
  intros Hi. unfold round_to_53_bits.
  destruct (Z.eq_dec (Z.abs i) (2 ^ 53)) as [Heq|Hne].
  - rewrite Heq. change (round_magnitude (2 ^ 53)) with (2 ^ 53). lia.
  - destruct (Z.eq_dec i 0) as [->|Hi0]; [done|].
    rewrite round_magnitude_small; [lia|lia|].
    assert (Z.log2 (Z.abs i) < 53); [|lia]. apply Z.log2_lt_pow2; lia.
Qed.

(** C6: when the resolved base or the operand is a double, local
    application promotes both to double and returns their IEEE sum as a
    double, with nothing clamped. [AsDouble] leaves a double as it is and
    converts a 64-bit integer to the double that holds it rounded to 53
    significant bits, to the nearest and ties to even, hence exactly up to
    [2^53] in magnitude. Integer 2 and 0.5 give 2.5, the integer [2^53 + 1]
    and 0.0 give [2^53], and the largest finite double added to itself gives
    infinity. *)
Theorem NumericIncrement_doubles_add
    (previous_value : option Value) (local_write_time : Timestamp)
    (operand base : Value) (i : Z) (d : float)
    (Hoperand : is_number operand = true)
    (Hbase : NumericIncrementTransform.ComputeBaseValue previous_value
             = Some base)
    (Hdouble : google_firestore_v1_Value.type base
               = google_firestore_v1_Value.Double
               ∨ google_firestore_v1_Value.type operand
                 = google_firestore_v1_Value.Double)
    (Hi : int64_range i) :
  (∃ x y,
     NumericIncrementTransform.AsDouble base = Some x
     ∧ NumericIncrementTransform.AsDouble operand = Some y
     ∧ NumericIncrementTransform.ApplyToLocalView
         operand previous_value local_write_time
       = Some (FromDouble (x + y)%float))
  ∧ NumericIncrementTransform.AsDouble (FromInteger i)
    = Some (double_of_int64 i)
  ∧ (∃ x,
       NumericIncrementTransform.AsDouble (FromInteger i) = Some x
       ∧ double_integer_value x = Some (round_to_53_bits i))
  ∧ (Z.abs i <= 2 ^ 53 → round_to_53_bits i = i)
  ∧ NumericIncrementTransform.AsDouble (FromDouble d) = Some d
  ∧ NumericIncrementTransform.ApplyToLocalView
      (FromDouble 0.5%float) (Some (FromInteger 2)) local_write_time
    = Some (FromDouble 2.5%float)
  ∧ NumericIncrementTransform.ApplyToLocalView
      (FromDouble 0%float) (Some (FromInteger (2 ^ 53 + 1))) local_write_time
    = Some (FromDouble 9007199254740992%float)
  ∧ NumericIncrementTransform.ApplyToLocalView
      (FromDouble 0x1.fffffffffffffp+1023%float)
      (Some (FromDouble 0x1.fffffffffffffp+1023%float)) local_write_time
    = Some (FromDouble infinity).
Proof.
  split.
  - pose proof (ComputeBaseValue_number _ _ Hbase) as Hnum.
    unfold NumericIncrementTransform.ApplyToLocalView. rewrite Hbase.
    destruct base, operand; try done; destruct Hdouble as [?|?]; try done;
      simpl; eauto.
  - split; [done|]. split.
    { eexists. split; [done|]. apply double_of_int64_nearest.
      unfold int64_range, INT64_MIN, INT64_MAX in Hi. lia. }
    split; [apply round_to_53_bits_exact|]. by repeat split.
Qed.

End NumericFacts.

(** ** Remote application, equality and hashing *)
Section OperationFacts.
Context `{ValueOps}.

(** C7: remote application of a server timestamp transform and of a
    numeric increment returns the transform result as it is, whatever the
    previous value. *)
Theorem ApplyToRemoteDocument_returns_transform_result
    (previous_value : option Value) (transform_result operand : Value)
    (op : TransformOperation)
    (Hop : NumericIncrementTransform.new operand = Some op) :
  TransformOperation_ApplyToRemoteDocument
    ServerTimestampTransform.new previous_value transform_result
  = Some transform_result
  ∧ TransformOperation_ApplyToRemoteDocument
      op previous_value transform_result
    = Some transform_result.
Proof.
  split; [done|]. unfold NumericIncrementTransform.new in Hop.
  destruct (is_number operand); [|done]. by injection Hop as <-.
Qed.

Lemma constructed_inv op :
  constructed op → ∃ r, rep_ op = Some r ∧ constructed_Rep r = true.
Proof.
  intros [|type elements op' Hop|operand op' Hop].
  - by eexists.
  - unfold ArrayTransform.new in Hop.
    destruct (IsArrayTransform type) eqn:Htype; [|done].
    injection Hop as <-. by eexists.
  - unfold NumericIncrementTransform.new in Hop.
    destruct (is_number operand) eqn:Hnum; [|done].
    injection Hop as <-. by eexists.
Qed.

Lemma Equals_loop_spec n : ∀ i other_elements elements,
  length other_elements = length elements →
  (i + n = length elements)%nat →
  ArrayTransform.Equals_loop n i other_elements elements
  = Some (bool_decide
            (elements_equal (drop i other_elements) (drop i elements))).
Proof.
  unfold elements_equal.
  induction n as [|n IH]; intros i oes es Hlen Hn; simpl.
  - rewrite !drop_ge by lia. by rewrite bool_decide_eq_true_2.
  - destruct (lookup_lt_is_Some_2 oes i ltac:(lia)) as [a Ha].
    destruct (lookup_lt_is_Some_2 es i ltac:(lia)) as [b Hb].
    rewrite Ha, Hb; simpl.
    rewrite (drop_S _ _ _ Ha), (drop_S _ _ _ Hb).
    destruct (value_eqb a b) eqn:Hab; simpl.
    + rewrite IH by lia. f_equal. apply bool_decide_ext.
      rewrite Forall2_cons. tauto.
    + rewrite bool_decide_eq_false_2; [done|].
      rewrite Forall2_cons. intros [? _]. congruence.
Qed.

(** Equality of two array representations: the same tag and the same
    candidates in the same order. *)
Lemma ArrayTransform_Equals_spec type_ elements_ other_type other_elements :
  ArrayTransform.Equals type_ elements_
    (ArrayTransform_Rep other_type other_elements)
  = Some (bool_decide (other_type = type_
                       ∧ elements_equal other_elements elements_)).
Proof.
  unfold ArrayTransform.Equals; simpl.
  case_bool_decide as Htype.
  { rewrite bool_decide_eq_false_2; [done|]. tauto. }
  simpl.
  case_bool_decide as Hlen.
  { rewrite bool_decide_eq_false_2; [done|]. intros [_ Heq].
    apply Forall2_length in Heq. done. }
  rewrite Equals_loop_spec by (done || lia). rewrite !drop_0.
  f_equal. apply bool_decide_ext. tauto.
Qed.

(** On constructed operations [Equals] never runs into an invalid
    downcast, and decides what the spec says. *)
Lemma Rep_Equals_spec r other :
  constructed_Rep r = true → constructed_Rep other = true →
  Rep_Equals r other = Some (Equals_spec r other).
Proof.
  destruct r as [|type_ elements_|operand_],
    other as [|other_type other_elements|other_operand];
    simpl; intros Hr Hother; try done.
  - by destruct other_type.
  - by destruct type_.
  - apply ArrayTransform_Equals_spec.
  - by destruct type_.
  - by destruct other_type.
Qed.

Lemma Rep_Equals_tags r other :
  Rep_type r ≠ Rep_type other → Equals_spec r other = false.
Proof.
  destruct r, other; simpl; try done.
  intros Htags. rewrite bool_decide_eq_false_2; [done|].
  intros [-> _]. done.
Qed.

Section Laws.
Context `{!ValueLaws}.

Lemma elements_equal_refl elements : elements_equal elements elements.
Proof.
  unfold elements_equal. induction elements as [|x elements IH];
    constructor; [apply value_eqb_refl|done].
Qed.

Lemma elements_equal_sym other_elements elements :
  elements_equal other_elements elements
  ↔ elements_equal elements other_elements.
Proof.
  unfold elements_equal.
  split; intros Heq; apply Forall2_flip;
    (eapply Forall2_impl; [exact Heq|]); simpl;
    intros x y Hxy; by rewrite value_eqb_sym.
Qed.

Lemma Equals_spec_refl r : Equals_spec r r = true.
Proof.
  destruct r; simpl; [done| |apply value_eqb_refl].
  rewrite bool_decide_eq_true_2; [done|].
  split; [done|apply elements_equal_refl].
Qed.

Lemma Equals_spec_sym r other : Equals_spec r other = Equals_spec other r.
Proof.
  destruct r, other; simpl; try done; [|apply value_eqb_sym].
  apply bool_decide_ext. rewrite elements_equal_sym.
  split; intros [-> ?]; done.
Qed.

Lemma Hash_elements_equal other_elements elements :
  elements_equal other_elements elements →
  ∀ result,
    foldl (λ result element, size_t_wrap (31 * result + value_hash element))
          result other_elements
    = foldl (λ result element, size_t_wrap (31 * result + value_hash element))
            result elements.
Proof.
  induction 1 as [|x y other_elements elements Hxy _ IH]; intros result;
    simpl; [done|].
  rewrite (value_hash_eqb x y Hxy). apply IH.
Qed.

Lemma Equals_spec_Hash r other :
  Equals_spec r other = true → Rep_Hash r = Rep_Hash other.
Proof.
  destruct r, other; simpl; try done.
  - intros [-> Heq]%bool_decide_eq_true.
    unfold ArrayTransform.Hash. symmetry. by apply Hash_elements_equal.
  - apply value_hash_eqb.
Qed.

End Laws.

(** C9: on constructed transforms, equality is reflexive and symmetric,
    operations with different variant tags are never equal, and equal
    operations have equal hashes; all server timestamp transforms are
    equal, with hash 37, and two array transforms are equal exactly when
    they have the same tag and the same candidates in the same order. *)
Theorem Equals_equivalence_consistent_with_Hash
    `{!ValueLaws} (a b c : TransformOperation)
    (type other_type : Type_) (elements other_elements : list Value)
    (array other_array : TransformOperation)
    (Ha : constructed a) (Hb : constructed b) (Hc : constructed c)
    (Harray : ArrayTransform.new type elements = Some array)
    (Hother : ArrayTransform.new other_type other_elements
              = Some other_array) :
  TransformOperation_eq a a = Some true
  ∧ TransformOperation_eq a b = TransformOperation_eq b a
  ∧ is_Some (TransformOperation_eq a b)
  ∧ (TransformOperation_type a ≠ TransformOperation_type c →
     TransformOperation_eq a c = Some false)
  ∧ (TransformOperation_eq a b = Some true →
     TransformOperation_Hash a = TransformOperation_Hash b)
  ∧ TransformOperation_eq
      ServerTimestampTransform.new ServerTimestampTransform.new
    = Some true
  ∧ TransformOperation_Hash ServerTimestampTransform.new = Some 37
  ∧ (TransformOperation_eq array other_array = Some true
     ↔ other_type = type ∧ elements_equal other_elements elements).
Proof.
  destruct (constructed_inv a Ha) as (ra & Hra & Hca).
  destruct (constructed_inv b Hb) as (rb & Hrb & Hcb).
  destruct (constructed_inv c Hc) as (rc & Hrc & Hcc).
  unfold TransformOperation_eq, TransformOperation_type,
    TransformOperation_Hash.
  rewrite Hra, Hrb, Hrc; simpl.
  rewrite !Rep_Equals_spec by done.
  split; [by rewrite Equals_spec_refl|].
  split; [by rewrite Equals_spec_sym|].
  split; [by eexists|].
  split; [intros Htags; rewrite Rep_Equals_tags; congruence|].
  split; [intros [= Heq]; f_equal; by apply Equals_spec_Hash|].
  split; [done|]. split; [done|].
  unfold ArrayTransform.new in Harray, Hother.
  destruct (IsArrayTransform type), (IsArrayTransform other_type);
    try done.
  injection Harray as <-. injection Hother as <-. simpl.
  rewrite ArrayTransform_Equals_spec.
  split.
  - intros [= Heq]. by apply bool_decide_eq_true in Heq.
  - intros Heq. f_equal. by apply bool_decide_eq_true.
Qed.

End OperationFacts.

(** ** The claims, run on concrete values *)
Section Witnesses.
Import Sample.
Local Abbreviation ops := StructuralValue.ops.

Lemma ArrayRemove_removes_every_occurrence_witness :
  (Forall (λ x, @value_eqb ops b x = false) [a; a]
   ∧ @value_eqb ops a a = true ∧ @value_eqb ops a b = false)
  ∧ ArrayTransform.Apply (H:=ops) ArrayRemove [b; a]
      (Some (FromArray [a; b; a; b]))
    = Some (FromArray [])
  ∧ ArrayTransform.Apply_body (H:=ops) ArrayRemove [a; a] b = Some [a; a]
  ∧ ArrayTransform.Apply (H:=ops) ArrayRemove [a] (Some (FromArray [a; b; a]))
    = Some (FromArray [b]).
Proof.
  destruct (ArrayRemove_removes_every_occurrence (H:=ops)
              (Some (FromArray [a; b; a; b])) [b; a] [a; a] b a b)
    as (Hall & Habsent & Hexample).
  split; [by repeat constructor|].
  split; [exact Hall|].
  split; [apply Habsent; by repeat constructor|].
  apply Hexample; reflexivity.
Defined.

Lemma ArrayUnion_appends_absent_candidates_witness :
  (@value_eqb ops a a = true ∧ @value_eqb ops a b = false)
  ∧ ArrayTransform.Apply (H:=ops) ArrayUnion [b; a; b]
      (Some (FromArray [a; a]))
    = Some (FromArray [a; a; b])
  ∧ ArrayTransform.Apply (H:=ops) ArrayUnion [a; a; b] (Some (FromArray [a]))
    = Some (FromArray [a; b]).
Proof.
  destruct (ArrayUnion_appends_absent_candidates (H:=ops)
              (Some (FromArray [a; a])) [b; a; b] a b)
    as (Hall & _ & Hexample).
  split; [by split|]. split; [exact Hall|].
  apply Hexample; reflexivity.
Defined.

Lemma NumericIncrement_integers_saturate_witness :
  (NumericIncrementTransform.ComputeBaseValue
     (Some (FromInteger (INT64_MIN + 2)))
   = Some (FromInteger (INT64_MIN + 2))
   ∧ int64_range (INT64_MIN + 2) ∧ int64_range (-5))
  ∧ NumericIncrementTransform.ApplyToLocalView
      (FromInteger (-5)) (Some (FromInteger (INT64_MIN + 2))) now
    = Some (FromInteger INT64_MIN).
Proof.
  assert (int64_range (INT64_MIN + 2)) as Hbase
    by (unfold int64_range, INT64_MIN, INT64_MAX; lia).
  assert (int64_range (-5)) as Hoperand
    by (unfold int64_range, INT64_MIN, INT64_MAX; lia).
  split; [by repeat split|].
  apply (NumericIncrement_integers_saturate
           (Some (FromInteger (INT64_MIN + 2))) now (INT64_MIN + 2) (-5)
           eq_refl Hbase Hoperand).
Defined.

Lemma ComputeBaseValue_by_kind_witness :
  (is_number (FromDouble 1.5%float) = true ∧ is_number (FromString "x") = false)
  ∧ Rep_ComputeBaseValue (NumericIncrementTransform_Rep (FromInteger 3))
      (Some (FromDouble 1.5%float))
    = Some (FromDouble 1.5%float)
  ∧ Rep_ComputeBaseValue (NumericIncrementTransform_Rep (FromInteger 3))
      (Some (FromString "x"))
    = Some (FromInteger 0)
  ∧ Rep_ComputeBaseValue (ArrayTransform_Rep ArrayRemove [a])
      (Some (FromArray [a]))
    = None.
Proof.
  destruct (ComputeBaseValue_by_kind (Some (FromArray [a])) [a]
              (FromInteger 3) (FromDouble 1.5%float) (FromString "x")
              eq_refl eq_refl)
    as (_ & _ & Hremove & _ & Hnumeric & Hother & _).
  split; [by split|]. by repeat split.
Defined.


Lemma NumericIncrement_doubles_add_witness :
  (is_number (FromInteger 2) = true
   ∧ NumericIncrementTransform.ComputeBaseValue (Some (FromDouble 0.25%float))
     = Some (FromDouble 0.25%float)
   ∧ int64_range (2 ^ 53 + 3)
   ∧ int64_range (-7) ∧ Z.abs (-7) <= 2 ^ 53)
  ∧ (∃ x y,
       NumericIncrementTransform.AsDouble (FromDouble 0.25%float) = Some x
       ∧ NumericIncrementTransform.AsDouble (FromInteger 2) = Some y
       ∧ NumericIncrementTransform.ApplyToLocalView
           (FromInteger 2) (Some (FromDouble 0.25%float)) now
         = Some (FromDouble (x + y)%float))
  ∧ (∃ x,
       NumericIncrementTransform.AsDouble (FromInteger (2 ^ 53 + 3)) = Some x
       ∧ double_integer_value x = Some (2 ^ 53 + 4))
  ∧ round_to_53_bits (-7) = -7.
Proof.
  assert (int64_range (2 ^ 53 + 3)) as Hi
    by (unfold int64_range, INT64_MIN, INT64_MAX; lia).
  assert (int64_range (-7)) as Hj
    by (unfold int64_range, INT64_MIN, INT64_MAX; lia).
  assert (Z.abs (-7) <= 2 ^ 53) as Hsmall by (by vm_compute).
  destruct (NumericIncrement_doubles_add
              (Some (FromDouble 0.25%float)) now (FromInteger 2)
              (FromDouble 0.25%float) (2 ^ 53 + 3) 0%float eq_refl eq_refl
              (or_introl eq_refl) Hi)
    as (Hsum & _ & Hpromote & _).
  destruct (NumericIncrement_doubles_add
              (Some (FromDouble 0.25%float)) now (FromInteger 2)
              (FromDouble 0.25%float) (-7) 0%float eq_refl eq_refl
              (or_introl eq_refl) Hj)
    as (_ & _ & _ & Hexact & _).
  split; [by repeat split|]. split; [exact Hsum|].
  split; [exact Hpromote|]. exact (Hexact Hsmall).
Defined.

Lemma ApplyToRemoteDocument_returns_transform_result_witness :
  NumericIncrementTransform.new (FromInteger 3) = Some increment_op
  ∧ TransformOperation_ApplyToRemoteDocument (H:=ops)
      increment_op (Some (FromInteger 10)) (FromInteger 13)
    = Some (FromInteger 13).
Proof.
  split; [reflexivity|].
  apply (ApplyToRemoteDocument_returns_transform_result (H:=ops)
           (Some (FromInteger 10)) (FromInteger 13) (FromInteger 3)
           increment_op eq_refl).
Defined.

Lemma array_transform_local_remote_agree_witness :
  ArrayTransform.new ArrayUnion [a; b] = Some union_op
  ∧ ∃ value,
      ∀ local_write_time transform_result,
        TransformOperation_ApplyToLocalView (H:=ops)
          union_op (Some (FromArray [b])) local_write_time
        = Some value
        ∧ TransformOperation_ApplyToRemoteDocument (H:=ops)
            union_op (Some (FromArray [b])) transform_result
          = Some value.
Proof.
  split; [reflexivity|].
  apply (array_transform_local_remote_agree (H:=ops)
           ArrayUnion [a; b] union_op (Some (FromArray [b])) eq_refl).
Defined.

Lemma array_transform_returns_array_witness :
  ArrayTransform.new ArrayRemove [a] = Some remove_op
  ∧ (∃ value,
       TransformOperation_ApplyToLocalView (H:=ops)
         remove_op (Some (FromInteger 5)) now
       = Some value
       ∧ google_firestore_v1_Value.type value
         = google_firestore_v1_Value.Array).
Proof.
  split; [reflexivity|].
  apply (array_transform_returns_array (H:=ops)
           ArrayRemove [a] remove_op (Some (FromInteger 5)) now FromNull
           eq_refl).
Defined.

Lemma Equals_equivalence_consistent_with_Hash_witness :
  (constructed union_op ∧ constructed ServerTimestampTransform.new
   ∧ ArrayTransform.new ArrayUnion [a; b] = Some union_op
   ∧ ArrayTransform.new ArrayRemove [a] = Some remove_op
   ∧ TransformOperation_type union_op
     ≠ TransformOperation_type ServerTimestampTransform.new
   ∧ TransformOperation_eq (H:=ops) union_op union_op = Some true)
  ∧ TransformOperation_eq (H:=ops) union_op ServerTimestampTransform.new
    = Some false
  ∧ TransformOperation_Hash (H:=ops) union_op
    = TransformOperation_Hash (H:=ops) union_op
  ∧ (TransformOperation_eq (H:=ops) union_op remove_op = Some true
     ↔ ArrayRemove = ArrayUnion ∧ elements_equal (H:=ops) [a] [a; b]).
Proof.
  assert (constructed union_op) as Hunion
    by exact (constructed_Array ArrayUnion [a; b] union_op eq_refl).
  assert (TransformOperation_type union_op
          ≠ TransformOperation_type ServerTimestampTransform.new) as Htags
    by discriminate.
  destruct (Equals_equivalence_consistent_with_Hash
              (H:=ops) (H0:=StructuralValue_laws)
              union_op union_op ServerTimestampTransform.new
              ArrayUnion ArrayRemove [a; b] [a] union_op remove_op
              Hunion Hunion constructed_ServerTimestamp eq_refl eq_refl)
    as (Hrefl & _ & _ & Hdiff & Hhash & _ & _ & Harray).
  split.
  { split; [exact Hunion|]. split; [exact constructed_ServerTimestamp|].
    split; [reflexivity|]. split; [reflexivity|].
    split; [exact Htags|exact Hrefl]. }
  split; [by apply Hdiff|]. split; [by apply Hhash|]. exact Harray.
Defined.

End Witnesses.

(** * Further properties of the array transforms *)
Section ArrayAlgebra.
Context `{ValueOps}.

(** A removal pass keeps exactly what is equal to no candidate. *)
Lemma removal_spec_filter candidates : ∀ result,
  removal_spec result candidates
  = filter (λ x, Forall (λ e, value_eqb e x = false) candidates) result.
Proof.
  induction candidates as [|e candidates IH]; intros result.
  - simpl. induction result as [|x result IHr]; [done|].
    rewrite filter_cons_True by constructor. by rewrite <- IHr.
  - change (removal_spec result (e :: candidates))
      with (removal_spec (remove_candidate result e) candidates).
    rewrite IH. unfold remove_candidate. rewrite list_filter_filter.
    apply list_filter_iff. intros x. rewrite Forall_cons. tauto.
Qed.

(** X1: ArrayRemove returns the elements of the coerced previous value that
    are equal to no candidate, in their original order: a subsequence of the
    previous elements in which nothing a candidate is equal to is left. *)
Theorem ArrayRemove_keeps_what_no_candidate_equals
    (previous_value : option Value) (elements : list Value) :
  ∃ result,
    ArrayTransform.Apply ArrayRemove elements previous_value
    = Some (FromArray result)
    ∧ result
      = filter (λ x, Forall (λ e, value_eqb e x = false) elements)
               (coerced_spec previous_value)
    ∧ result `sublist_of` coerced_spec previous_value
    ∧ Forall (λ x, Forall (λ e, value_eqb e x = false) elements) result.
Proof.
  eexists. split; [apply Apply_remove|]. rewrite removal_spec_filter.
  split; [done|]. split; [apply sublist_filter|].
  apply Forall_forall. intros x Hx. by apply list_elem_of_filter in Hx as [Hx _].
Qed.

(** X2: ArrayRemove depends on its candidates only as a set: reordering
    them, or repeating one, does not change the result. *)
Theorem ArrayRemove_candidates_as_set
    (previous_value : option Value) (elements elements' : list Value)
    (Hsame : ∀ e, e ∈ elements ↔ e ∈ elements') :
  ArrayTransform.Apply ArrayRemove elements previous_value
  = ArrayTransform.Apply ArrayRemove elements' previous_value.
Proof.
  rewrite !Apply_remove, !removal_spec_filter. do 2 f_equal.
  apply list_filter_iff. intros x. rewrite !Forall_forall.
  split; intros Hall e He; apply Hall; by apply Hsame.
Qed.

(** X3: ArrayRemove is idempotent: applied to its own result, it returns
    that result. *)
Theorem ArrayRemove_idempotent
    (previous_value : option Value) (elements : list Value) :
  (value ← ArrayTransform.Apply ArrayRemove elements previous_value;
   ArrayTransform.Apply ArrayRemove elements (Some value))
  = ArrayTransform.Apply ArrayRemove elements previous_value.
Proof.
  rewrite Apply_remove. simpl. rewrite Apply_remove. simpl.
  rewrite !removal_spec_filter. do 2 f_equal.
  apply list_filter_filter_l. tauto.
Qed.

(** A union pass leaves a result alone in which every candidate already has
    an equal element. *)
Lemma union_spec_present candidates result :
  Forall (λ e, Exists (λ x, value_eqb x e = true) result) candidates →
  union_spec result candidates = result.
Proof.
  induction 1 as [|e candidates He _ IH]; [done|].
  change (union_spec result (e :: candidates))
    with (union_spec (union_candidate result e) candidates).
  unfold union_candidate. by rewrite decide_True.
Qed.

(** After a union pass every candidate equal to itself has an equal element
    in the result. *)
Lemma union_spec_covers candidates : ∀ result,
  Forall (λ e, value_eqb e e = true) candidates →
  Forall (λ e, Exists (λ x, value_eqb x e = true)
                      (union_spec result candidates)) candidates.
Proof.
  induction candidates as [|e candidates IH]; intros result Hrefl; [done|].
  apply Forall_cons in Hrefl as [He Hrefl].
  change (union_spec result (e :: candidates))
    with (union_spec (union_candidate result e) candidates).
  constructor; [|by apply IH].
  destruct (union_spec_appended candidates (union_candidate result e))
    as (appended & -> & _).
  apply Exists_app. left. unfold union_candidate. case_decide as Hex; [done|].
  apply Exists_app. right. by constructor.
Qed.

(** X4: after ArrayUnion, the previous elements are a prefix of the result,
    at most one element per candidate was added, and every candidate (that
    is equal to itself) has an equal element in the result. *)
Theorem ArrayUnion_covers_candidates
    (previous_value : option Value) (elements : list Value)
    (Hrefl : Forall (λ e, value_eqb e e = true) elements) :
  ∃ result,
    ArrayTransform.Apply ArrayUnion elements previous_value
    = Some (FromArray result)
    ∧ coerced_spec previous_value `prefix_of` result
    ∧ (length result
       ≤ length (coerced_spec previous_value) + length elements)%nat
    ∧ Forall (λ e, Exists (λ x, value_eqb x e = true) result) elements.
Proof.
  eexists. split; [apply Apply_union|].
  split; [|split; [|by apply union_spec_covers]].
  - destruct (union_spec_appended elements (coerced_spec previous_value))
      as (appended & -> & _). by apply prefix_app_r.
  - destruct (union_spec_appended elements (coerced_spec previous_value))
      as (appended & -> & Hsub & _).
    rewrite length_app. apply sublist_length in Hsub. lia.
Qed.

(** X5: ArrayUnion is idempotent: applied to its own result, it returns that
    result (for candidates equal to themselves). *)
Theorem ArrayUnion_idempotent
    (previous_value : option Value) (elements : list Value)
    (Hrefl : Forall (λ e, value_eqb e e = true) elements) :
  (value ← ArrayTransform.Apply ArrayUnion elements previous_value;
   ArrayTransform.Apply ArrayUnion elements (Some value))
  = ArrayTransform.Apply ArrayUnion elements previous_value.
Proof.
  rewrite Apply_union. simpl. rewrite Apply_union. simpl.
  do 2 f_equal. apply union_spec_present. by apply union_spec_covers.
Qed.

(** X6: removing the candidates that were just united takes away all that
    the union added: ArrayRemove after ArrayUnion, with the same candidates,
    is ArrayRemove on the previous value. *)
Theorem ArrayRemove_after_ArrayUnion
    (previous_value : option Value) (elements : list Value)
    (Hrefl : Forall (λ e, value_eqb e e = true) elements) :
  (value ← ArrayTransform.Apply ArrayUnion elements previous_value;
   ArrayTransform.Apply ArrayRemove elements (Some value))
  = ArrayTransform.Apply ArrayRemove elements previous_value.
Proof.
  rewrite Apply_union. simpl. rewrite !Apply_remove. simpl.
  rewrite !removal_spec_filter. do 2 f_equal.
  destruct (union_spec_appended elements (coerced_spec previous_value))
    as (appended & -> & Hsub & _).
  rewrite filter_app.
  rewrite <- (app_nil_r (filter _ (coerced_spec previous_value))) at 2.
  f_equal. apply sublist_subseteq in Hsub. clear -Hsub Hrefl.
  induction appended as [|x appended IH]; [done|].
  rewrite filter_cons_False.
  - apply IH. intros y Hy. apply Hsub. by right.
  - intros Hall. rewrite Forall_forall in Hall, Hrefl.
    assert (x ∈ elements) as Hx by (apply Hsub; by left).
    specialize (Hall x Hx). specialize (Hrefl x Hx). congruence.
Qed.

(** X7: [Apply] aborts exactly when the tag is not an array tag and there is
    a candidate to process. *)
Theorem Apply_aborts_iff
    (type_ : Type_) (elements : list Value) (previous_value : option Value) :
  ArrayTransform.Apply type_ elements previous_value = None
  ↔ IsArrayTransform type_ = false ∧ elements ≠ [].
Proof.
  destruct (IsArrayTransform type_) eqn:Htype.
  - rewrite (Apply_array _ _ _ Htype). split; [done|]. by intros [? _].
  - unfold ArrayTransform.Apply. rewrite Coerced_spec. simpl.
    destruct elements as [|e elements]; simpl.
    + split; [done|]. by intros [_ ?].
    + unfold ArrayTransform.Apply_body. destruct type_; try done.
Qed.

End ArrayAlgebra.

(** * Further properties of the numeric increment *)
Section NumericAlgebra.

(** X8: [SafeIncrement] is commutative on 64-bit integers, although it
    inspects the sign of its first argument only. *)
Theorem SafeIncrement_comm (x y : Z)
    (Hx : int64_range x) (Hy : int64_range y) :
  NumericIncrementTransform.SafeIncrement x y
  = NumericIncrementTransform.SafeIncrement y x.
Proof.
  rewrite !SafeIncrement_saturating by done.
  unfold saturating_sum. rewrite (Z.add_comm y x). done.
Qed.

(** X9: [SafeIncrement] stays within the 64-bit range and is monotone in
    both arguments. *)
Theorem SafeIncrement_monotone (x x' y y' : Z)
    (Hx : int64_range x) (Hx' : int64_range x')
    (Hy : int64_range y) (Hy' : int64_range y')
    (Hxx' : x <= x') (Hyy' : y <= y') :
  int64_range (NumericIncrementTransform.SafeIncrement x y)
  ∧ NumericIncrementTransform.SafeIncrement x y
    <= NumericIncrementTransform.SafeIncrement x' y'.
Proof.
  rewrite !SafeIncrement_saturating by done.
  split; [apply saturating_sum_range|].
  unfold int64_range, INT64_MIN, INT64_MAX in *.
  unfold saturating_sum, INT64_MIN, INT64_MAX. repeat case_decide; lia.
Qed.

(** X10: two increments of the same sign compose into the increment by their
    sum, saturation included. *)
Theorem SafeIncrement_same_sign_compose (base a b : Z)
    (Hbase : int64_range base) (Ha : int64_range a) (Hb : int64_range b)
    (Hab : int64_range (a + b))
    (Hsign : 0 <= a ∧ 0 <= b ∨ a <= 0 ∧ b <= 0) :
  NumericIncrementTransform.SafeIncrement
    (NumericIncrementTransform.SafeIncrement base a) b
  = NumericIncrementTransform.SafeIncrement base (a + b).
Proof.
  rewrite (SafeIncrement_saturating base a) by done.
  rewrite !SafeIncrement_saturating by (done || apply saturating_sum_range).
  unfold int64_range, INT64_MIN, INT64_MAX in *.
  unfold saturating_sum, INT64_MIN, INT64_MAX. repeat case_decide; lia.
Qed.

(** X11: an integer operand applied to an absent or non-numeric previous
    value is returned as it is: the base defaults to the integer zero. *)
Theorem NumericIncrement_on_missing_base
    (previous_value : option Value) (local_write_time : Timestamp)
    (operand : Z)
    (Hprevious : from_option is_number false previous_value = false)
    (Hoperand : int64_range operand) :
  NumericIncrementTransform.ApplyToLocalView
    (FromInteger operand) previous_value local_write_time
  = Some (FromInteger operand).
Proof.
  unfold NumericIncrementTransform.ApplyToLocalView,
    NumericIncrementTransform.ComputeBaseValue.
  destruct previous_value as [p|]; simpl in Hprevious;
    rewrite ?Hprevious; simpl;
    rewrite SafeIncrement_saturating
      by (done || unfold int64_range, INT64_MIN, INT64_MAX; lia);
    unfold int64_range, INT64_MIN, INT64_MAX in Hoperand;
    unfold saturating_sum, INT64_MIN, INT64_MAX;
    repeat case_decide; (done || lia).
Qed.

(** X12: local application aborts exactly when the operand is not a number;
    otherwise it returns a number. *)
Theorem NumericIncrement_aborts_iff
    (operand : Value) (previous_value : option Value)
    (local_write_time : Timestamp) :
  (NumericIncrementTransform.ApplyToLocalView
     operand previous_value local_write_time = None
   ↔ is_number operand = false)
  ∧ (is_number operand = true →
     ∃ value,
       NumericIncrementTransform.ApplyToLocalView
         operand previous_value local_write_time = Some value
       ∧ is_number value = true).
Proof.
  destruct (NumericIncrementTransform.ComputeBaseValue previous_value)
    as [base|] eqn:Hbase.
  2: { destruct previous_value as [p|]; [|done].
       unfold NumericIncrementTransform.ComputeBaseValue in Hbase.
       by destruct (is_number p). }
  pose proof (ComputeBaseValue_number _ _ Hbase) as Hnum.
  unfold NumericIncrementTransform.ApplyToLocalView. rewrite Hbase.
  destruct base; try done; destruct operand; simpl; split; try done;
    by eauto.
Qed.

(** X13: the result of local application is an integer exactly when the
    resolved base and the operand are both integers; otherwise it is a
    double. *)
Theorem NumericIncrement_integer_iff
    (operand base value : Value) (previous_value : option Value)
    (local_write_time : Timestamp)
    (Hbase : NumericIncrementTransform.ComputeBaseValue previous_value
             = Some base)
    (Hvalue : NumericIncrementTransform.ApplyToLocalView
                operand previous_value local_write_time = Some value) :
  (google_firestore_v1_Value.type value = google_firestore_v1_Value.Integer
   ↔ google_firestore_v1_Value.type base = google_firestore_v1_Value.Integer
     ∧ google_firestore_v1_Value.type operand
       = google_firestore_v1_Value.Integer)
  ∧ (google_firestore_v1_Value.type value = google_firestore_v1_Value.Double
     ↔ ¬ (google_firestore_v1_Value.type base
          = google_firestore_v1_Value.Integer
          ∧ google_firestore_v1_Value.type operand
            = google_firestore_v1_Value.Integer)).
Proof.
  pose proof (ComputeBaseValue_number _ _ Hbase) as Hnum.
  unfold NumericIncrementTransform.ApplyToLocalView in Hvalue.
  rewrite Hbase in Hvalue.
  destruct base; try done; destruct operand; simpl in Hvalue; try done;
    injection Hvalue as <-; simpl;
    (split; split); try done;
    try (by intros [? ?]); try (by intros Hno; destruct Hno);
    try (by intros _ [? ?]).
Qed.

(** X14: local application sees the previous value only through the base
    value: it may be replaced by its base, and resolving a base twice
    changes nothing. *)
Theorem NumericIncrement_through_base
    (operand : Value) (previous_value : option Value)
    (local_write_time : Timestamp) :
  NumericIncrementTransform.ApplyToLocalView
    operand (NumericIncrementTransform.ComputeBaseValue previous_value)
    local_write_time
  = NumericIncrementTransform.ApplyToLocalView
      operand previous_value local_write_time
  ∧ NumericIncrementTransform.ComputeBaseValue
      (NumericIncrementTransform.ComputeBaseValue previous_value)
    = NumericIncrementTransform.ComputeBaseValue previous_value.
Proof.
  assert (NumericIncrementTransform.ComputeBaseValue
            (NumericIncrementTransform.ComputeBaseValue previous_value)
          = NumericIncrementTransform.ComputeBaseValue previous_value)
    as Hidem.
  { unfold NumericIncrementTransform.ComputeBaseValue.
    destruct previous_value as [p|]; [|done].
    destruct (is_number p) eqn:Hp; [by rewrite Hp|done]. }
  split; [|done].
  unfold NumericIncrementTransform.ApplyToLocalView. by rewrite Hidem.
Qed.

End NumericAlgebra.

(** * Further properties of hashing, equality and the accessors *)
Section HashFacts.
Context `{ValueOps}.

(** The mixing step [31 * result + h] is injective in [result] modulo
    [2^64], 31 being odd. *)
Lemma hash_step_inj (h r r' : Z) :
  0 <= r < 2 ^ 64 → 0 <= r' < 2 ^ 64 →
  size_t_wrap (31 * r + h) = size_t_wrap (31 * r' + h) → r = r'.
Proof.
  unfold size_t_wrap. intros Hr Hr' Heq.
  assert ((2 ^ 64 | 31 * (r - r'))) as Hdiv.
  { exists ((31 * r + h) / 2 ^ 64 - (31 * r' + h) / 2 ^ 64).
    pose proof (Z.div_mod (31 * r + h) (2 ^ 64) ltac:(lia)).
    pose proof (Z.div_mod (31 * r' + h) (2 ^ 64) ltac:(lia)). lia. }
  apply Z.gauss in Hdiv; [|reflexivity].
  destruct Hdiv as [k Hk]. lia.
Qed.

Lemma size_t_wrap_range z : 0 <= size_t_wrap z < 2 ^ 64.
Proof. unfold size_t_wrap. apply Z.mod_pos_bound. lia. Qed.

Lemma hash_fold_inj elements : ∀ r r',
  0 <= r < 2 ^ 64 → 0 <= r' < 2 ^ 64 →
  foldl (λ result element, size_t_wrap (31 * result + value_hash element))
        r elements
  = foldl (λ result element, size_t_wrap (31 * result + value_hash element))
          r' elements →
  r = r'.
Proof.
  induction elements as [|e elements IH]; intros r r' Hr Hr' Heq; [done|].
  simpl in Heq. apply IH in Heq; try apply size_t_wrap_range.
  by apply hash_step_inj in Heq.
Qed.

(** X15: the hash of an array transform is a [size_t], and it tells union
    from removal: with the same candidates, the two hashes differ. *)
Theorem ArrayTransform_Hash_separates_kinds (elements : list Value) :
  0 <= ArrayTransform.Hash ArrayUnion elements < 2 ^ 64
  ∧ 0 <= ArrayTransform.Hash ArrayRemove elements < 2 ^ 64
  ∧ ArrayTransform.Hash ArrayUnion elements
    ≠ ArrayTransform.Hash ArrayRemove elements.
Proof.
  unfold ArrayTransform.Hash. simpl.
  assert (∀ r, 0 <= r < 2 ^ 64 →
            0 <= foldl (λ result element,
                          size_t_wrap (31 * result + value_hash element))
                       r elements < 2 ^ 64) as Hrange.
  { induction elements as [|e elements IH]; intros r Hr; [done|].
    simpl. apply IH, size_t_wrap_range. }
  split; [apply Hrange, size_t_wrap_range|].
  split; [apply Hrange, size_t_wrap_range|].
  intros Heq. apply hash_fold_inj in Heq; try apply size_t_wrap_range.
  discriminate Heq.
Qed.

End HashFacts.

Section EqualityFacts.
Context `{ValueOps}.

Lemma elements_equal_trans (l k m : list Value) :
  (∀ x y z, value_eqb x y = true → value_eqb y z = true →
            value_eqb x z = true) →
  elements_equal l k → elements_equal k m → elements_equal l m.
Proof.
  intros Htrans Hlk. revert m. unfold elements_equal in *.
  induction Hlk as [|x y l k Hxy _ IH]; intros m Hkm; inversion Hkm; subst;
    constructor; eauto.
Qed.

(** X16: with a transitive value equality, equality of constructed
    operations is transitive. *)
Theorem Equals_transitive (a b c : TransformOperation)
    (Htrans : ∀ x y z, value_eqb x y = true → value_eqb y z = true →
                       value_eqb x z = true)
    (Ha : constructed a) (Hb : constructed b) (Hc : constructed c)
    (Hab : TransformOperation_eq a b = Some true)
    (Hbc : TransformOperation_eq b c = Some true) :
  TransformOperation_eq a c = Some true.
Proof.
  destruct (constructed_inv a Ha) as (ra & Hra & Hca).
  destruct (constructed_inv b Hb) as (rb & Hrb & Hcb).
  destruct (constructed_inv c Hc) as (rc & Hrc & Hcc).
  unfold TransformOperation_eq in *. rewrite Hra, Hrb, Hrc in *.
  rewrite Rep_Equals_spec in * by done.
  injection Hab as Hab. injection Hbc as Hbc. f_equal.
  destruct ra, rb; try done; destruct rc; try done; simpl in *.
  - apply bool_decide_eq_true in Hab as [-> Hab].
    apply bool_decide_eq_true in Hbc as [-> Hbc].
    apply bool_decide_eq_true. split; [done|].
    by apply (elements_equal_trans _ _ _ Htrans Hbc Hab).
  - by eapply Htrans.
Qed.

(** X17: the empty shell is equal to itself and to no constructed
    operation, whichever side it stands on. *)
Theorem empty_shell_equal_only_to_itself (op : TransformOperation)
    (Hop : constructed op) :
  TransformOperation_eq empty_shell empty_shell = Some true
  ∧ TransformOperation_eq empty_shell op = Some false
  ∧ TransformOperation_eq op empty_shell = Some false.
Proof.
  destruct (constructed_inv op Hop) as (r & Hr & _).
  unfold TransformOperation_eq. simpl. rewrite Hr. done.
Qed.

(** X18: an array transform gives back what it was constructed from: its
    tag and its candidates; it passes the assertion of the converting array
    constructor and fails that of the increment one, and has no operand. *)
Theorem ArrayTransform_accessors
    (type : Type_) (elements : list Value) (op : TransformOperation)
    (Hop : ArrayTransform.new type elements = Some op) :
  IsArrayTransform type = true
  ∧ TransformOperation_type op = Some type
  ∧ ArrayTransform.elements op = Some elements
  ∧ ArrayTransform.from_operation op = Some op
  ∧ NumericIncrementTransform.from_operation op = None
  ∧ NumericIncrementTransform.operand op = None.
Proof.
  unfold ArrayTransform.new in Hop.
  destruct (IsArrayTransform type) eqn:Htype; [|done].
  injection Hop as <-.
  unfold ArrayTransform.from_operation,
    NumericIncrementTransform.from_operation; simpl. rewrite Htype.
  by destruct type.
Qed.

(** X19: a numeric increment gives back the operand it was constructed
    from, which is a number; it passes the assertion of the converting
    increment constructor and fails that of the array one, and has no
    candidates. *)
Theorem NumericIncrementTransform_accessors
    (operand : Value) (op : TransformOperation)
    (Hop : NumericIncrementTransform.new operand = Some op) :
  is_number operand = true
  ∧ TransformOperation_type op = Some Increment
  ∧ NumericIncrementTransform.operand op = Some operand
  ∧ NumericIncrementTransform.from_operation op = Some op
  ∧ ArrayTransform.from_operation op = None
  ∧ ArrayTransform.elements op = None.
Proof.
  unfold NumericIncrementTransform.new in Hop.
  destruct (is_number operand) eqn:Hnum; [|done].
  by injection Hop as <-.
Qed.

(** X20: on constructed operations the assertion of a converting
    constructor guards the downcast of the accessor: where
    [ArrayTransform(op)] passes, [elements()] is defined, and where
    [NumericIncrementTransform(op)] passes, [operand()] is; never both. *)
Theorem converting_constructors_guard_accessors
    (op : TransformOperation) (Hop : constructed op) :
  (is_Some (ArrayTransform.from_operation op)
   ↔ is_Some (ArrayTransform.elements op))
  ∧ (is_Some (NumericIncrementTransform.from_operation op)
     ↔ is_Some (NumericIncrementTransform.operand op))
  ∧ ¬ (is_Some (ArrayTransform.from_operation op)
       ∧ is_Some (NumericIncrementTransform.from_operation op)).
Proof.
  destruct (constructed_inv op Hop) as (r & Hr & Hc).
  unfold ArrayTransform.from_operation, ArrayTransform.elements,
    NumericIncrementTransform.from_operation,
    NumericIncrementTransform.operand.
  rewrite Hr. simpl.
  destruct r as [|type_ elements_|operand_]; simpl in *;
    rewrite ?Hc; try (destruct type_; try done);
    rewrite !is_Some_alt; simpl; tauto.
Qed.

End EqualityFacts.

Section ToStringFacts.

(** X21: whatever the rendering of values, the string of a constructed
    operation tells its kind: operations of different tags have different
    strings. *)
Theorem ToString_tells_the_kind
    (value_ToString : Value → string)
    (elements_ToString : list Value → string) (r other : Rep)
    (Hr : constructed_Rep r = true) (Hother : constructed_Rep other = true)
    (Htags : Rep_type r ≠ Rep_type other) :
  Rep_ToString value_ToString elements_ToString r
  ≠ Rep_ToString value_ToString elements_ToString other.
Proof.
  destruct r as [|type_ elements_|operand_],
    other as [|other_type other_elements|other_operand];
    simpl in *; try done;
    unfold ServerTimestampTransform.ToString, ArrayTransform.ToString,
      NumericIncrementTransform.ToString;
    try (destruct type_; try done);
    try (destruct other_type; try done);
    simpl; discriminate.
Qed.

End ToStringFacts.

Section ArrayRoundTrip.
Context `{ValueOps}.



End ArrayRoundTrip.

(** ** The structural equality is transitive *)
Section StructuralTransitivity.
Import StructuralValue.

Lemma list_eqb_trans {A} (f : A → A → bool) l :
  Forall (λ x, ∀ y z, f x y = true → f y z = true → f x z = true) l →
  ∀ k m, list_eqb f l k = true → list_eqb f k m = true →
         list_eqb f l m = true.
Proof.
  induction 1 as [|x l Hx _ IH]; intros [|y k] [|z m]; simpl; try done.
  intros [Hxy Hlk]%andb_prop [Hyz Hkm]%andb_prop.
  apply andb_true_intro. split; [by eapply Hx|by eapply IH].
Qed.

Lemma Value_eqb_trans x : ∀ y z,
  Value_eqb x y = true → Value_eqb y z = true → Value_eqb x z = true.
Proof.
  induction x as [| | | | |ts [p|] IH| |l IH|m IH] using Value_ind;
    intros [| | | | |ts' [q|]| |l'|m']; simpl; try done;
    intros [| | | | |ts'' [q'|]| |l''|m'']; simpl; try done;
    rewrite ?andb_true_iff, ?bool_decide_eq_true;
    try congruence;
    try (by intros [? ?] [? ?]);
    try (by intros [-> _] [-> _]).
  - intros [-> Hpq] [-> Hqq']. split; [done|]. by eapply IH.
  - by apply list_eqb_trans.
  - apply list_eqb_trans. eapply Forall_impl; [exact IH|]. simpl.
    intros kv Hkv kw kx.
    rewrite !andb_true_iff, !bool_decide_eq_true.
    intros [-> Hv] [-> Hw]. split; [done|]. by eapply Hkv.
Qed.

End StructuralTransitivity.

(** ** The further properties, run on concrete values *)
Section MoreWitnesses.
Import Sample.
Local Abbreviation ops := StructuralValue.ops.

Lemma ArrayRemove_candidates_as_set_witness :
  ArrayTransform.Apply (H:=ops) ArrayRemove [a; b]
    (Some (FromArray [a; FromInteger 7; b]))
  = ArrayTransform.Apply (H:=ops) ArrayRemove [b; a; b]
      (Some (FromArray [a; FromInteger 7; b])).
Proof.
  apply (ArrayRemove_candidates_as_set (H:=ops)
           (Some (FromArray [a; FromInteger 7; b])) [a; b] [b; a; b]).
  intros e. rewrite !elem_of_cons, elem_of_nil. tauto.
Defined.

Lemma ArrayUnion_covers_candidates_witness :
  Forall (λ e, @value_eqb ops e e = true) [b; a; b]
  ∧ ∃ result,
      ArrayTransform.Apply (H:=ops) ArrayUnion [b; a; b]
        (Some (FromArray [a; a]))
      = Some (FromArray result)
      ∧ coerced_spec (Some (FromArray [a; a])) `prefix_of` result
      ∧ (length result
         ≤ length (coerced_spec (Some (FromArray [a; a])))
           + length [b; a; b])%nat
      ∧ Forall (λ e, Exists (λ x, @value_eqb ops x e = true) result)
               [b; a; b].
Proof.
  assert (Forall (λ e, @value_eqb ops e e = true) [b; a; b]) as Hrefl
    by (by repeat constructor).
  split; [exact Hrefl|].
  exact (ArrayUnion_covers_candidates (H:=ops)
           (Some (FromArray [a; a])) [b; a; b] Hrefl).
Defined.

Lemma ArrayUnion_idempotent_witness :
  Forall (λ e, @value_eqb ops e e = true) [b; a; b]
  ∧ ArrayTransform.Apply (H:=ops) ArrayUnion [b; a; b]
      (Some (FromArray [a; a; b]))
    = ArrayTransform.Apply (H:=ops) ArrayUnion [b; a; b]
        (Some (FromArray [a; a])).
Proof.
  assert (Forall (λ e, @value_eqb ops e e = true) [b; a; b]) as Hrefl
    by (by repeat constructor).
  split; [exact Hrefl|].
  exact (ArrayUnion_idempotent (H:=ops)
           (Some (FromArray [a; a])) [b; a; b] Hrefl).
Defined.

Lemma ArrayRemove_after_ArrayUnion_witness :
  Forall (λ e, @value_eqb ops e e = true) [b; a]
  ∧ ArrayTransform.Apply (H:=ops) ArrayRemove [b; a]
      (Some (FromArray [FromInteger 7; a; b]))
    = ArrayTransform.Apply (H:=ops) ArrayRemove [b; a]
        (Some (FromArray [FromInteger 7; a])).
Proof.
  assert (Forall (λ e, @value_eqb ops e e = true) [b; a]) as Hrefl
    by (by repeat constructor).
  split; [exact Hrefl|].
  exact (ArrayRemove_after_ArrayUnion (H:=ops)
           (Some (FromArray [FromInteger 7; a])) [b; a] Hrefl).
Defined.


Lemma SafeIncrement_comm_witness :
  (int64_range INT64_MAX ∧ int64_range (-3))
  ∧ NumericIncrementTransform.SafeIncrement INT64_MAX (-3)
    = NumericIncrementTransform.SafeIncrement (-3) INT64_MAX.
Proof.
  assert (int64_range INT64_MAX) as Hx
    by (unfold int64_range, INT64_MIN, INT64_MAX; lia).
  assert (int64_range (-3)) as Hy
    by (unfold int64_range, INT64_MIN, INT64_MAX; lia).
  split; [by split|]. exact (SafeIncrement_comm INT64_MAX (-3) Hx Hy).
Defined.

Lemma SafeIncrement_monotone_witness :
  (int64_range 5 ∧ int64_range INT64_MAX ∧ int64_range (-3) ∧ int64_range 4
   ∧ 5 <= INT64_MAX ∧ -3 <= 4)
  ∧ int64_range (NumericIncrementTransform.SafeIncrement 5 (-3))
  ∧ NumericIncrementTransform.SafeIncrement 5 (-3)
    <= NumericIncrementTransform.SafeIncrement INT64_MAX 4.
Proof.
  assert (int64_range 5) as Hx
    by (unfold int64_range, INT64_MIN, INT64_MAX; lia).
  assert (int64_range INT64_MAX) as Hx'
    by (unfold int64_range, INT64_MIN, INT64_MAX; lia).
  assert (int64_range (-3)) as Hy
    by (unfold int64_range, INT64_MIN, INT64_MAX; lia).
  assert (int64_range 4) as Hy'
    by (unfold int64_range, INT64_MIN, INT64_MAX; lia).
  assert (5 <= INT64_MAX) as Hxx' by (unfold INT64_MAX; lia).
  assert (-3 <= 4) as Hyy' by lia.
  split; [by repeat split|].
  exact (SafeIncrement_monotone 5 INT64_MAX (-3) 4 Hx Hx' Hy Hy' Hxx' Hyy').
Defined.

Lemma SafeIncrement_same_sign_compose_witness :
  (int64_range (INT64_MAX - 1) ∧ int64_range 5 ∧ int64_range 3
   ∧ int64_range (5 + 3) ∧ (0 <= 5 ∧ 0 <= 3 ∨ 5 <= 0 ∧ 3 <= 0))
  ∧ NumericIncrementTransform.SafeIncrement
      (NumericIncrementTransform.SafeIncrement (INT64_MAX - 1) 5) 3
    = NumericIncrementTransform.SafeIncrement (INT64_MAX - 1) (5 + 3).
Proof.
  assert (int64_range (INT64_MAX - 1)) as Hbase
    by (unfold int64_range, INT64_MIN, INT64_MAX; lia).
  assert (int64_range 5) as Ha
    by (unfold int64_range, INT64_MIN, INT64_MAX; lia).
  assert (int64_range 3) as Hb
    by (unfold int64_range, INT64_MIN, INT64_MAX; lia).
  assert (int64_range (5 + 3)) as Hab
    by (unfold int64_range, INT64_MIN, INT64_MAX; lia).
  assert (0 <= 5 ∧ 0 <= 3 ∨ 5 <= 0 ∧ 3 <= 0) as Hsign by lia.
  split; [by repeat split|].
  exact (SafeIncrement_same_sign_compose
           (INT64_MAX - 1) 5 3 Hbase Ha Hb Hab Hsign).
Defined.

Lemma NumericIncrement_on_missing_base_witness :
  (from_option is_number false (Some (FromString "x")) = false
   ∧ int64_range 3)
  ∧ NumericIncrementTransform.ApplyToLocalView
      (FromInteger 3) (Some (FromString "x")) now
    = Some (FromInteger 3).
Proof.
  assert (int64_range 3) as Hoperand
    by (unfold int64_range, INT64_MIN, INT64_MAX; lia).
  split; [by split|].
  exact (NumericIncrement_on_missing_base
           (Some (FromString "x")) now 3 eq_refl Hoperand).
Defined.

Lemma NumericIncrement_aborts_iff_witness :
  is_number (FromDouble 0.5%float) = true
  ∧ ∃ value,
      NumericIncrementTransform.ApplyToLocalView
        (FromDouble 0.5%float) (Some (FromInteger 2)) now = Some value
      ∧ is_number value = true.
Proof.
  split; [reflexivity|].
  apply (NumericIncrement_aborts_iff
           (FromDouble 0.5%float) (Some (FromInteger 2)) now).
  reflexivity.
Defined.

Lemma NumericIncrement_integer_iff_witness :
  (NumericIncrementTransform.ComputeBaseValue (Some (FromInteger 2))
   = Some (FromInteger 2)
   ∧ NumericIncrementTransform.ApplyToLocalView
       (FromDouble 0.5%float) (Some (FromInteger 2)) now
     = Some (FromDouble 2.5%float))
  ∧ (google_firestore_v1_Value.type (FromDouble 2.5%float)
     = google_firestore_v1_Value.Integer
     ↔ google_firestore_v1_Value.type (FromInteger 2)
       = google_firestore_v1_Value.Integer
       ∧ google_firestore_v1_Value.type (FromDouble 0.5%float)
         = google_firestore_v1_Value.Integer)
  ∧ (google_firestore_v1_Value.type (FromDouble 2.5%float)
     = google_firestore_v1_Value.Double
     ↔ ¬ (google_firestore_v1_Value.type (FromInteger 2)
          = google_firestore_v1_Value.Integer
          ∧ google_firestore_v1_Value.type (FromDouble 0.5%float)
            = google_firestore_v1_Value.Integer)).
Proof.
  split; [by split|].
  exact (NumericIncrement_integer_iff
           (FromDouble 0.5%float) (FromInteger 2) (FromDouble 2.5%float)
           (Some (FromInteger 2)) now eq_refl eq_refl).
Defined.

Lemma TypeTagValue_eqb_trans (x y z : Value) :
  @value_eqb TypeTagValue.ops x y = true →
  @value_eqb TypeTagValue.ops y z = true →
  @value_eqb TypeTagValue.ops x z = true.
Proof. simpl. rewrite !bool_decide_eq_true. congruence. Qed.

Lemma Equals_transitive_witness :
  ((∀ x y z, @value_eqb TypeTagValue.ops x y = true →
             @value_eqb TypeTagValue.ops y z = true →
             @value_eqb TypeTagValue.ops x z = true)
   ∧ constructed {| rep_ := Some (ArrayTransform_Rep ArrayUnion
                                    [FromInteger 1; FromString "a"]) |}
   ∧ constructed {| rep_ := Some (ArrayTransform_Rep ArrayUnion
                                    [FromInteger 2; FromString "b"]) |}
   ∧ constructed {| rep_ := Some (ArrayTransform_Rep ArrayUnion
                                    [FromInteger 3; FromString "c"]) |}
   ∧ TransformOperation_eq (H:=TypeTagValue.ops)
       {| rep_ := Some (ArrayTransform_Rep ArrayUnion
                          [FromInteger 1; FromString "a"]) |}
       {| rep_ := Some (ArrayTransform_Rep ArrayUnion
                          [FromInteger 2; FromString "b"]) |}
     = Some true
   ∧ TransformOperation_eq (H:=TypeTagValue.ops)
       {| rep_ := Some (ArrayTransform_Rep ArrayUnion
                          [FromInteger 2; FromString "b"]) |}
       {| rep_ := Some (ArrayTransform_Rep ArrayUnion
                          [FromInteger 3; FromString "c"]) |}
     = Some true)
  ∧ TransformOperation_eq (H:=TypeTagValue.ops)
      {| rep_ := Some (ArrayTransform_Rep ArrayUnion
                         [FromInteger 1; FromString "a"]) |}
      {| rep_ := Some (ArrayTransform_Rep ArrayUnion
                         [FromInteger 3; FromString "c"]) |}
    = Some true.
Proof.
  assert (∀ elements,
            constructed
              {| rep_ := Some (ArrayTransform_Rep ArrayUnion elements) |})
    as Hunion
    by (intros elements; exact (constructed_Array ArrayUnion elements _ eq_refl)).
  split.
  { split; [exact TypeTagValue_eqb_trans|].
    split; [apply Hunion|]. split; [apply Hunion|]. split; [apply Hunion|].
    split; reflexivity. }
  exact (Equals_transitive (H:=TypeTagValue.ops)
           {| rep_ := Some (ArrayTransform_Rep ArrayUnion
                              [FromInteger 1; FromString "a"]) |}
           {| rep_ := Some (ArrayTransform_Rep ArrayUnion
                              [FromInteger 2; FromString "b"]) |}
           {| rep_ := Some (ArrayTransform_Rep ArrayUnion
                              [FromInteger 3; FromString "c"]) |}
           TypeTagValue_eqb_trans (Hunion _) (Hunion _) (Hunion _)
           eq_refl eq_refl).
Defined.

Lemma empty_shell_equal_only_to_itself_witness :
  constructed increment_op
  ∧ TransformOperation_eq (H:=ops) empty_shell empty_shell = Some true
  ∧ TransformOperation_eq (H:=ops) empty_shell increment_op = Some false
  ∧ TransformOperation_eq (H:=ops) increment_op empty_shell = Some false.
Proof.
  assert (constructed increment_op) as Hop
    by exact (constructed_NumericIncrement (FromInteger 3) increment_op
                eq_refl).
  split; [exact Hop|].
  exact (empty_shell_equal_only_to_itself (H:=ops) increment_op Hop).
Defined.

Lemma ArrayTransform_accessors_witness :
  ArrayTransform.new ArrayUnion [a; b] = Some union_op
  ∧ ArrayTransform.elements union_op = Some [a; b]
  ∧ NumericIncrementTransform.operand union_op = None.
Proof.
  destruct (ArrayTransform_accessors ArrayUnion [a; b] union_op eq_refl)
    as (_ & _ & Helements & _ & _ & Hoperand).
  by repeat split.
Defined.

Lemma NumericIncrementTransform_accessors_witness :
  NumericIncrementTransform.new (FromInteger 3) = Some increment_op
  ∧ NumericIncrementTransform.operand increment_op = Some (FromInteger 3)
  ∧ ArrayTransform.elements increment_op = None.
Proof.
  destruct (NumericIncrementTransform_accessors
              (FromInteger 3) increment_op eq_refl)
    as (_ & _ & Hoperand & _ & _ & Helements).
  by repeat split.
Defined.

Lemma converting_constructors_guard_accessors_witness :
  constructed remove_op
  ∧ (is_Some (ArrayTransform.from_operation remove_op)
     ↔ is_Some (ArrayTransform.elements remove_op)).
Proof.
  assert (constructed remove_op) as Hop
    by exact (constructed_Array ArrayRemove [a] remove_op eq_refl).
  split; [exact Hop|].
  apply (converting_constructors_guard_accessors remove_op Hop).
Defined.

Lemma ToString_tells_the_kind_witness :
  (constructed_Rep (ArrayTransform_Rep ArrayUnion [a; b]) = true
   ∧ constructed_Rep (ArrayTransform_Rep ArrayRemove [a; b]) = true
   ∧ Rep_type (ArrayTransform_Rep ArrayUnion [a; b])
     ≠ Rep_type (ArrayTransform_Rep ArrayRemove [a; b]))
  ∧ Rep_ToString (λ _, "v") (λ _, "[v, v]")
      (ArrayTransform_Rep ArrayUnion [a; b])
    ≠ Rep_ToString (λ _, "v") (λ _, "[v, v]")
        (ArrayTransform_Rep ArrayRemove [a; b]).
Proof.
  assert (Rep_type (ArrayTransform_Rep ArrayUnion [a; b])
          ≠ Rep_type (ArrayTransform_Rep ArrayRemove [a; b])) as Htags
    by discriminate.
  split; [by repeat split|].
  exact (ToString_tells_the_kind (λ _, "v") (λ _, "[v, v]")
           (ArrayTransform_Rep ArrayUnion [a; b])
           (ArrayTransform_Rep ArrayRemove [a; b]) eq_refl eq_refl Htags).
Defined.

End MoreWitnesses.
